(** * LogicMachine: the unification core of [backtrack.hpp]

    A shallow embedding of the [Expression] hierarchy ([Atom<T>], [Fact],
    [Rule]) and of [Database<T>].  Objects live in a store indexed by
    addresses; an [Expression*] is an address, so that aliasing between
    argument lists, fact parts and the database pool is the aliasing of the
    source.  Virtual calls are dispatched on the object found in the store. *)

From stdpp Require Import gmap strings list fin_maps sorting.

(** ** Outcomes of running a member function

    [Fault] is a read through an invalid pointer or past the end of a
    [std::vector] (undefined behaviour in the source); [OutOfFuel] is the
    model's bound on the depth of nested virtual calls. *)
Inductive result (A : Type) : Type :=
| Ok (a : A)
| Fault
| OutOfFuel.
Arguments Ok {A} a.
Arguments Fault {A}.
Arguments OutOfFuel {A}.

(** Sequencing, written [x ← r; k] with stdpp's monad notation. *)
#[global] Instance result_ret : MRet result := λ A a, Ok a.
#[global] Instance result_bind : MBind result := λ A B k r,
  match r with
  | Ok a => k a
  | Fault => Fault
  | OutOfFuel => OutOfFuel
  end.

(** [v[i]] on a [std::vector]: defined only for [i < v.size()]. *)
Definition at_index {A : Type} (v : list A) (i : nat) : result A :=
  match v !! i with
  | Some x => Ok x
  | None => Fault
  end.

(** Addresses of heap objects. *)
Abbreviation loc := nat (only parsing).

(** [operator==] of the value type of an atom.  The source compares stored
    values only through it (lines 60 and 75), so nothing is assumed of it:
    it need not be reflexive (a [double] holding NaN) nor tell apart all
    values (the two zeros of a [double]). *)
Class ValueEq (val : Type) : Type := value_eq : val → val → bool.
#[global] Hint Mode ValueEq ! : typeclass_instances.

Section Backtrack.

(** [ty] stands for the template argument of [Atom<T>] as [typeid] sees it;
    [val] for the values carried, compared with [value_eq]. *)
Context {ty : Type} {ty_eq_dec : EqDecision ty}.
Context {val : Type} {val_operator_eq : ValueEq val}.

(** The three dynamic types below [Expression], with their data members. *)
Inductive Expression : Type :=
| Atom (T : ty) (m_value : val) (m_is_unified : bool)
| Fact (m_parts : list loc)
| Rule (m_args : list loc) (m_predicates : list loc).

Abbreviation heap := (gmap loc Expression).

(** Dereferencing an [Expression*] for a virtual call. *)
Definition deref (h : heap) (p : loc) : result Expression :=
  match h !! p with
  | Some e => Ok e
  | None => Fault
  end.

(** [is_unified()], [set_unified(val)] and [arity()] of each class. *)
Definition is_unified (e : Expression) : bool :=
  match e with
  | Atom _ _ u => u
  | Fact _ => true
  | Rule _ _ => true
  end.

Definition set_unified (v : bool) (e : Expression) : Expression :=
  match e with
  | Atom T x _ => Atom T x v
  | Fact parts => Fact parts
  | Rule args preds => Rule args preds
  end.

Definition arity (e : Expression) : nat :=
  match e with
  | Atom _ _ _ => 1
  | Fact parts => length parts
  | Rule args _ => length args
  end.

(** [typeid(e) == typeid(Atom<T>&)] *)
Definition is_Atom_of (T : ty) (e : Expression) : bool :=
  match e with
  | Atom T' _ _ => bool_decide (T' = T)
  | _ => false
  end.

(** [ununified_positions]: the indices of the arguments whose
    [is_unified()] is false, in increasing order; [i] is the running index. *)
Fixpoint ununified_positions_from (i : nat) (args : list loc) (h : heap)
  : result (list nat) :=
  match args with
  | [] => Ok []
  | each :: rest =>
      e ← deref h each;
      positions ← ununified_positions_from (S i) rest h;
      Ok (if is_unified e then positions else i :: positions)
  end.

Definition ununified_positions (args : list loc) (h : heap) : result (list nat) :=
  ununified_positions_from 0 args h.

(** [restore_ununified]: [args[pos]->set_unified(false)] for each position. *)
Fixpoint restore_ununified (positions : list nat) (args : list loc) (h : heap)
  : result heap :=
  match positions with
  | [] => Ok h
  | pos :: rest =>
      p ← at_index args pos;
      e ← deref h p;
      restore_ununified rest args (<[p := set_unified false e]> h)
  end.

(** [Atom<T>::operator()] of an atom holding [m_value].  The reference
    [*args[0]] is formed before the size of [args] is looked at; [typeid]
    reads the object only when the size test has passed. *)
Definition Atom_call (T : ty) (m_value : val) (args : list loc) (h : heap)
  : result (bool * heap) :=
  arg_ref ← at_index args 0;
  if negb (length args =? 1) then Ok (false, h)
  else
    arg ← deref h arg_ref;
    if negb (is_Atom_of T arg) then Ok (false, h)
    else
      match arg with
      | Atom T' arg_value arg_unified =>
          if negb arg_unified then
            Ok (true, <[arg_ref := set_unified true (Atom T' m_value arg_unified)]> h)
          else Ok (value_eq arg_value m_value, h)
      | _ => Ok (false, h)
      end.

(** [Rule::operator()] *)
Definition Rule_call (m_args : list loc) (args : list loc) (h : heap)
  : result (bool * heap) :=
  if negb (length args =? length m_args) then Ok (false, h)
  else Ok (false, h).

Section FactCall.
(** The virtual [operator()] that [Fact::operator()] invokes on its parts. *)
Variable call : loc → list loc → heap → result (bool * heap).
Variable m_parts : list loc.
Variable args : list loc.
Variable ununified : list nat.

(** The [for] loop of [Fact::operator()], from index [i], with [n]
    iterations left. *)
Fixpoint Fact_loop (n : nat) (i : nat) (h : heap) : result (bool * heap) :=
  match n with
  | 0 => Ok (true, h)
  | S n' =>
      a ← at_index args i;
      part ← at_index m_parts i;
      r ← call part [a] h;
      if negb r.1 then
        h' ← restore_ununified ununified args r.2;
        Ok (false, h')
      else Fact_loop n' (S i) r.2
  end.
End FactCall.

(** [Fact::operator()] *)
Definition Fact_call (call : loc → list loc → heap → result (bool * heap))
    (m_parts : list loc) (args : list loc) (h : heap) : result (bool * heap) :=
  if negb (length args =? length m_parts) then Ok (false, h)
  else
    ununified ← ununified_positions args h;
    Fact_loop call m_parts args ununified (length m_parts) 0 h.

(** [operator()] invoked through an [Expression*]: dispatch on the dynamic type.
    [fuel] bounds the nesting of calls. *)
Fixpoint call (fuel : nat) (this : loc) (args : list loc) (h : heap)
  : result (bool * heap) :=
  match fuel with
  | 0 => OutOfFuel
  | S fuel' =>
      e ← deref h this;
      match e with
      | Atom T m_value _ => Atom_call T m_value args h
      | Fact m_parts => Fact_call (call fuel') m_parts args h
      | Rule m_args _ => Rule_call m_args args h
      end
  end.

(** ** Database<T>

    [name] is the key type of [m_expressions]. *)
Context {name : Type} {name_eq_dec : EqDecision name} {name_countable : Countable name}.

Record Database : Type := {
  m_expressions : gmap name (list loc);
  m_atoms : list loc
}.

(** [new]: the object is placed at an address not in use. *)
Definition new (e : Expression) (h : heap) : loc * heap :=
  let p := fresh (dom h) in (p, <[p := e]> h).

(** What [add_fact] accepts for one argument: a value of type [T], or a
    [Variable<T>].  A [Variable<T>] makes [new Atom<T>], whose [m_value] is
    default-initialised; [init] is what that member then holds. *)
Inductive fact_arg : Type :=
| Value (T : ty) (v : val)
| Var (T : ty) (init : val).

(** What [add_rule] accepts for one argument: an [Expression*] of the
    caller, or a [Variable<T>]. *)
Inductive rule_arg : Type :=
| Pointer (expr : loc)
| Placeholder (T : ty) (init : val).

(** The two overloads of [add_atom]. *)
Definition add_atom (atom : fact_arg) (so_far : list loc) (h : heap)
    (pool : list loc) : list loc * heap * list loc :=
  let e := match atom with
           | Value T v => Atom T v true
           | Var T init => Atom T init false
           end in
  let '(new_atom, h') := new e h in
  (so_far ++ [new_atom], h', pool ++ [new_atom]).

(** The two overloads of [add_arg]. *)
Definition add_arg (arg : rule_arg) (so_far : list loc) (h : heap)
    (pool : list loc) : list loc * heap * list loc :=
  match arg with
  | Pointer expr => (so_far ++ [expr], h, pool)
  | Placeholder T init =>
      let '(new_atom, h') := new (Atom T init false) h in
      (so_far ++ [new_atom], h', pool ++ [new_atom])
  end.

(** The fold expressions [(add_atom(atoms, so_far), ...)] and
    [(add_arg(args, so_far), ...)], left to right. *)
Fixpoint add_atoms (atoms : list fact_arg) (so_far : list loc) (h : heap)
    (pool : list loc) : list loc * heap * list loc :=
  match atoms with
  | [] => (so_far, h, pool)
  | atom :: rest =>
      let '(so_far', h', pool') := add_atom atom so_far h pool in
      add_atoms rest so_far' h' pool'
  end.

Fixpoint add_args (args : list rule_arg) (so_far : list loc) (h : heap)
    (pool : list loc) : list loc * heap * list loc :=
  match args with
  | [] => (so_far, h, pool)
  | arg :: rest =>
      let '(so_far', h', pool') := add_arg arg so_far h pool in
      add_args rest so_far' h' pool'
  end.

(** [m[key]] of [std::map]: a missing key is entered with an empty vector. *)
Definition map_index (key : name) (m : gmap name (list loc))
  : list loc * gmap name (list loc) :=
  match m !! key with
  | Some v => (v, m)
  | None => ([], <[key := []]> m)
  end.

(** [m_expressions[key].push_back(p)] *)
Definition push_back_at (key : name) (p : loc) (m : gmap name (list loc))
  : gmap name (list loc) :=
  let '(v, m') := map_index key m in <[key := v ++ [p]]> m'.

(** [Database::add_fact]: the address of the new [Fact], and the state. *)
Definition add_fact (key : name) (atoms : list fact_arg) (h : heap)
    (db : Database) : loc * heap * Database :=
  let '(atoms_so_far, h1, pool) := add_atoms atoms [] h (m_atoms db) in
  let '(new_fact, h2) := new (Fact atoms_so_far) h1 in
  (new_fact, h2,
   {| m_expressions := push_back_at key new_fact (m_expressions db);
      m_atoms := pool |}).

(** [Database::add_rule] *)
Definition add_rule (key : name) (args : list rule_arg) (h : heap)
    (db : Database) : loc * heap * Database :=
  let '(args_so_far, h1, pool) := add_args args [] h (m_atoms db) in
  let '(new_rule, h2) := new (Rule args_so_far []) h1 in
  (new_rule, h2,
   {| m_expressions := push_back_at key new_rule (m_expressions db);
      m_atoms := pool |}).

(** [std::find_if] with the predicate [expr->arity() == arity]. *)
Fixpoint find_if_arity (n : nat) (exprs : list loc) (h : heap)
  : result (option loc) :=
  match exprs with
  | [] => Ok None
  | expr :: rest =>
      e ← deref h expr;
      if arity e =? n then Ok (Some expr) else find_if_arity n rest h
  end.

(** [Database::get]: [None] is [nullptr].  The function is not [const] and
    reads the vector through [m_expressions[name]], so the state it leaves
    is part of the result. *)
Definition get (key : name) (n : nat) (h : heap) (db : Database)
  : result (option loc * heap * Database) :=
  match m_expressions db !! key with
  | None => Ok (None, h, db)
  | Some _ =>
      let '(v, m') := map_index key (m_expressions db) in
      r ← find_if_arity n v h;
      Ok (r, h, {| m_expressions := m'; m_atoms := m_atoms db |})
  end.

(** The database right after construction. *)
Definition empty_db : Database := {| m_expressions := ∅; m_atoms := [] |}.

(** ** Vocabulary of the properties *)

Definition is_Atom (e : Expression) : bool :=
  match e with
  | Atom _ _ _ => true
  | _ => false
  end.

(** The dynamic type of [e] is not [Atom<T>]: [e] is an atom of another
    type, a [Fact] or a [Rule]. *)
Definition other_dynamic_type (T : ty) (e : Expression) : Prop :=
  match e with
  | Atom T' _ _ => T' ≠ T
  | Fact _ => True
  | Rule _ _ => True
  end.

(** The argument at [a] carries the answer [v]: it is a unified atom of
    type [T] that holds [v] itself (it was bound to it) or a value that is
    [==] to [v] (it was compared with it). *)
Definition carries (h : heap) (a : loc) (T : ty) (v : val) : Prop :=
  ∃ x, h !! a = Some (Atom T x true) ∧ (x = v ∨ value_eq x v = true).

(** The unification status of whatever lives at an address. *)
Definition status (h : heap) (p : loc) : option bool := is_unified <$> h !! p.

(** What a run of [operator()] may do to one object: an atom that is not
    unified may receive a value and a status, anything else stays as it is. *)
Definition evolves (e e' : Expression) : Prop :=
  match e with
  | Atom T _ false => ∃ v u, e' = Atom T v u
  | _ => e' = e
  end.

Definition heap_evolves (h h' : heap) : Prop :=
  ∀ p, match h !! p with
       | Some e => ∃ e', h' !! p = Some e' ∧ evolves e e'
       | None => h' !! p = None
       end.

(** A run that leaves every object outside [args] alone. *)
Definition frame (args : list loc) (h h' : heap) : Prop :=
  ∀ p, p ∉ args → h' !! p = h !! p.

(** What every returning call guarantees: unified objects are not written
    to, nothing outside the argument list is written to, and after the
    answer false every object has the status it had before. *)
Definition transactional (args : list loc) (h : heap) (b : bool) (h' : heap)
  : Prop :=
  heap_evolves h h' ∧ frame args h h'
  ∧ (b = false → ∀ p, status h' p = status h p).

(** [r] is the first entry of [exprs] whose arity is [n], or [None] when
    there is none. *)
Definition first_with_arity (h : heap) (n : nat) (exprs : list loc)
    (r : option loc) : Prop :=
  match r with
  | Some p =>
      ∃ i e, exprs !! i = Some p ∧ h !! p = Some e ∧ arity e = n
             ∧ ∀ j q e', j < i → exprs !! j = Some q → h !! q = Some e' →
                         arity e' ≠ n
  | None => ∀ q e', q ∈ exprs → h !! q = Some e' → arity e' ≠ n
  end.

(** The addresses an object points to. *)
Definition children (e : Expression) : list loc :=
  match e with
  | Atom _ _ _ => []
  | Fact m_parts => m_parts
  | Rule m_args m_predicates => m_args ++ m_predicates
  end.

(** [reach h root p]: following pointers from [root] leads to [p]. *)
Inductive reach (h : heap) : loc → loc → Prop :=
| reach_here p : reach h p p
| reach_child root e c p :
    h !! root = Some e → c ∈ children e → reach h c p → reach h root p.

(** Every atom reachable from [root] is in the pool. *)
Definition owned (h : heap) (pool : list loc) (root : loc) : Prop :=
  ∀ p, reach h root p → is_Atom <$> h !! p = Some true → p ∈ pool.

(** Every atom reachable from an expression registered under some name is
    in [m_atoms]. *)
Definition pool_invariant (h : heap) (db : Database) : Prop :=
  ∀ key exprs root,
    m_expressions db !! key = Some exprs → root ∈ exprs →
    owned h (m_atoms db) root.

(** The states a fresh database reaches, from a store [h0] of the caller's
    own objects, by calls of [add_fact] and [add_rule]; [allowed h db p]
    says which caller-supplied pointers [add_rule] is given. *)
Inductive built (allowed : heap → Database → loc → Prop) (h0 : heap)
  : heap → Database → Prop :=
| built_new : built allowed h0 h0 empty_db
| built_add_fact h db key atoms :
    built allowed h0 h db →
    built allowed h0 (add_fact key atoms h db).1.2 (add_fact key atoms h db).2
| built_add_rule h db key args :
    built allowed h0 h db →
    (∀ p, Pointer p ∈ args → allowed h db p) →
    built allowed h0 (add_rule key args h db).1.2 (add_rule key args h db).2.

(** No restriction on the pointers, and: only pointers whose atoms the
    database already owns. *)
Definition any_pointer (h : heap) (db : Database) (p : loc) : Prop := True.
Definition owned_pointer (h : heap) (db : Database) (p : loc) : Prop :=
  owned h (m_atoms db) p.

(** ** The rest of the interface

    [operator==], [operator!=], the members of [Rule] that build its body,
    and the destructor of [Database]. *)

(** [Atom<T>::operator==] of an atom holding [m_value] with status
    [m_is_unified]; [typeid(o)] reads the other object. *)
Definition Atom_eq (T : ty) (m_value : val) (m_is_unified : bool) (o : loc)
    (h : heap) : result bool :=
  other ← deref h o;
  Ok (is_Atom_of T other
      && match other with
         | Atom _ other_value other_unified =>
             value_eq other_value m_value
             || negb (bool_decide (other_unified = m_is_unified))
         | _ => false
         end).

(** [Rule::operator==]: the two pointer vectors are compared element by
    element, as addresses. *)
Definition Rule_eq (m_args m_predicates : list loc) (o : loc) (h : heap)
  : result bool :=
  other ← deref h o;
  Ok match other with
     | Rule other_args other_predicates =>
         bool_decide (other_args = m_args)
         && bool_decide (other_predicates = m_predicates)
     | _ => false
     end.

Section FactEq.
(** The virtual [operator==] that [Fact::operator==] invokes on its parts. *)
Variable equals : loc → loc → heap → result bool.

(** [Expression::operator!=] *)
Definition not_equals (this o : loc) (h : heap) : result bool :=
  b ← equals this o h; Ok (negb b).

Variable m_parts : list loc.
Variable other_parts : list loc.

(** The [for] loop of [Fact::operator==], from index [i], with [n]
    iterations left. *)
Fixpoint Fact_eq_loop (n : nat) (i : nat) (h : heap) : result bool :=
  match n with
  | 0 => Ok true
  | S n' =>
      part ← at_index m_parts i;
      other_part ← at_index other_parts i;
      differ ← not_equals part other_part h;
      if (differ : bool) then Ok false else Fact_eq_loop n' (S i) h
  end.
End FactEq.

(** [Fact::operator==] *)
Definition Fact_eq (equals : loc → loc → heap → result bool)
    (m_parts : list loc) (o : loc) (h : heap) : result bool :=
  other ← deref h o;
  match other with
  | Fact other_parts =>
      if negb (length other_parts =? length m_parts) then Ok false
      else Fact_eq_loop equals m_parts other_parts (length m_parts) 0 h
  | _ => Ok false
  end.

(** [operator==] invoked through an [Expression*], on the object at [o]. *)
Fixpoint equals (fuel : nat) (this o : loc) (h : heap) : result bool :=
  match fuel with
  | 0 => OutOfFuel
  | S fuel' =>
      e ← deref h this;
      match e with
      | Atom T m_value m_is_unified => Atom_eq T m_value m_is_unified o h
      | Fact m_parts => Fact_eq (equals fuel') m_parts o h
      | Rule m_args m_predicates => Rule_eq m_args m_predicates o h
      end
  end.

(** [Rule::operator[]] on the rule at [this]; anything else at that address
    is not a [Rule&]. *)
Definition Rule_subscript (this : loc) (index : nat) (h : heap) : result loc :=
  e ← deref h this;
  match e with
  | Rule m_args _ => at_index m_args index
  | _ => Fault
  end.

(** [Rule::operator<<] and [Rule::operator,]: the part is appended to
    [m_predicates]; the result [*this] is the same address. *)
Definition Rule_append (this : loc) (part : loc) (h : heap) : result heap :=
  e ← deref h this;
  match e with
  | Rule m_args m_predicates =>
      Ok (<[this := Rule m_args (m_predicates ++ [part])]> h)
  | _ => Fault
  end.

(** [delete p]: the object must be live. *)
Definition delete_expr (p : loc) (h : heap) : result heap :=
  match h !! p with
  | Some _ => Ok (delete p h)
  | None => Fault
  end.

Fixpoint delete_each (ps : list loc) (h : heap) : result heap :=
  match ps with
  | [] => Ok h
  | p :: rest => h' ← delete_expr p h; delete_each rest h'
  end.

(** The first loop of [~Database], over the entries of [m_expressions] in
    the order [entries] in which the map is traversed. *)
Fixpoint delete_lists (entries : list (name * list loc)) (h : heap)
  : result heap :=
  match entries with
  | [] => Ok h
  | (_, exprs) :: rest => h' ← delete_each exprs h; delete_lists rest h'
  end.

(** [Database::~Database] *)
Definition Database_destroy (entries : list (name * list loc)) (db : Database)
    (h : heap) : result heap :=
  h' ← delete_lists entries h;
  delete_each (m_atoms db) h'.

(** The atom that [add_atom] makes of one argument of [add_fact]. *)
Definition atom_of_arg (atom : fact_arg) : Expression :=
  match atom with
  | Value T v => Atom T v true
  | Var T init => Atom T init false
  end.

(** [part] and the argument [a] can be made equal: [a] is an atom of the
    type of [part] that is not unified, or holds a value that is [==] to
    the value of [part]. *)
Definition agrees (h : heap) (part a : loc) : bool :=
  match h !! part, h !! a with
  | Some (Atom T v _), Some (Atom T' x u) =>
      bool_decide (T' = T) && (negb u || value_eq x v)
  | _, _ => false
  end.

(** What the database has allocated on top of the caller's store [h0]:
    the addresses in [pool] and under the names of [m] are pairwise
    distinct, unused in [h0] and live in [h], and they are all that [h] has
    beyond [h0]. *)
Definition allocation_inv (h0 h : heap) (m : gmap name (list loc))
    (pool : list loc) : Prop :=
  h0 ⊆ h
  ∧ NoDup pool
  ∧ (∀ p, p ∈ pool → h0 !! p = None ∧ is_Some (h !! p))
  ∧ (∀ key exprs, m !! key = Some exprs →
       NoDup exprs
       ∧ ∀ p, p ∈ exprs → h0 !! p = None ∧ is_Some (h !! p) ∧ p ∉ pool)
  ∧ (∀ k1 k2 e1 e2 p, m !! k1 = Some e1 → m !! k2 = Some e2 →
       p ∈ e1 → p ∈ e2 → k1 = k2)
  ∧ (∀ p, is_Some (h !! p) →
       is_Some (h0 !! p) ∨ p ∈ pool
       ∨ ∃ key exprs, m !! key = Some exprs ∧ p ∈ exprs).

End Backtrack.

Arguments Expression : clear implicits.
Arguments fact_arg : clear implicits.
Arguments rule_arg : clear implicits.
Arguments Database name {_ _}.

(** ** A concrete database: [parent("alice", "bob")]

    Names, type tags and values are strings.  [parent_heap] holds the two
    atoms of the fact at 0 and 1 and the fact at 2. *)
Module Scenario.

(** [std::string]: [==] compares the contents. *)
#[global] Instance string_operator_eq : ValueEq string :=
  λ x y, bool_decide (x = y).

Definition parent_state : loc * gmap loc (Expression string string) * Database string :=
  add_fact "parent" [Value "string" "alice"; Value "string" "bob"] ∅ empty_db.
Definition parent_fact : loc := parent_state.1.1.
Definition parent_heap : gmap loc (Expression string string) := parent_state.1.2.
Definition parent_db : Database string := parent_state.2.

(** The caller's query atoms: a fresh variable at 3, ["alice"] at 4 and
    ["zoe"] at 5. *)
Definition query_heap : gmap loc (Expression string string) :=
  <[5 := Atom "string" "zoe" true]>
    (<[4 := Atom "string" "alice" true]>
       (<[3 := Atom "string" "" false]> parent_heap)).

(** The store after the failed query [parent(X, "zoe")]. *)
Definition failed_heap : gmap loc (Expression string string) :=
  <[3 := Atom "string" "alice" false]> query_heap.

(** A caller who made the query atoms first: a variable at 3 and ["alice"]
    at 4, then [add_fact]. *)
Definition asked_heap : gmap loc (Expression string string) :=
  <[4 := Atom "string" "alice" true]> {[3 := Atom "string" "" false]}.
Definition asked_state : loc * gmap loc (Expression string string) * Database string :=
  add_fact "parent" [Value "string" "alice"; Value "string" "bob"]
    asked_heap empty_db.
Definition asked_fact : loc := asked_state.1.1.
Definition asked_fact_heap : gmap loc (Expression string string) := asked_state.1.2.
Definition asked_db : Database string := asked_state.2.

(** A rule [ancestor(X, Y, alice)] whose third argument is the pointer to
    the database's own atom at 0. *)
Definition ancestor_args : list (rule_arg string string) :=
  [Placeholder "string" ""; Placeholder "string" ""; Pointer 0].
Definition ancestor_state : loc * gmap loc (Expression string string) * Database string :=
  add_rule "ancestor" ancestor_args parent_heap parent_db.
Definition ancestor_rule : loc := ancestor_state.1.1.
Definition ancestor_heap : gmap loc (Expression string string) := ancestor_state.1.2.
Definition ancestor_db : Database string := ancestor_state.2.

(** A caller's own atom at 0, handed to [add_rule] of an empty database. *)
Definition caller_heap : gmap loc (Expression string string) :=
  {[0 := Atom "string" "x" false]}.
Definition caller_rule : loc * gmap loc (Expression string string) * Database string :=
  add_rule "r" [Pointer 0] caller_heap empty_db.
Definition caller_rule_heap : gmap loc (Expression string string) := caller_rule.1.2.
Definition caller_rule_db : Database string := caller_rule.2.

(** The store after the query [parent("alice", X)] has answered. *)
Definition answered_heap : gmap loc (Expression string string) :=
  <[3 := Atom "string" "bob" true]> query_heap.

(** The query written as a fact of the caller, at 6. *)
Definition asking_heap : gmap loc (Expression string string) :=
  <[6 := Fact [4; 3]]> query_heap.

(** A value type compared as [double] is: [nan] is not [==] to anything,
    itself included, and the two zeros are [==]. *)
Inductive number : Type := nan | neg_zero | pos_zero | one.

#[global] Instance number_operator_eq : ValueEq number := λ x y,
  match x, y with
  | nan, _ | _, nan => false
  | one, one => true
  | one, _ | _, one => false
  | _, _ => true
  end.

(** Atoms of type [double] holding NaN, +0 and -0 at 0, 1 and 2, a
    variable of type [double] at 3, the fact [f(NaN)] at 4, and two atoms
    of type [long] at 5 (a variable) and 6. *)
Definition number_heap : gmap loc (Expression string number) :=
  <[6 := Atom "long" one true]>
    (<[5 := Atom "long" one false]>
       (<[4 := Fact [0]]>
          (<[3 := Atom "double" one false]>
             (<[2 := Atom "double" neg_zero true]>
                (<[1 := Atom "double" pos_zero true]>
                   {[0 := Atom "double" nan true]}))))).

(** The store after the atom at 0 has bound the variable at 3. *)
Definition number_bound_heap : gmap loc (Expression string number) :=
  <[3 := Atom "double" nan true]> number_heap.

End Scenario.

Section Properties.

Context {ty : Type} {ty_eq_dec : EqDecision ty}.
Context {val : Type} {val_operator_eq : ValueEq val}.
Context {name : Type} {name_eq_dec : EqDecision name} {name_countable : Countable name}.

Local Abbreviation heap := (gmap loc (Expression ty val)).
Implicit Types (h : heap) (e : Expression ty val) (db : Database name).

(** ** Single calls: arity, type and value tests *)

Lemma call_unfold fuel this args h e :
  h !! this = Some e →
  call (S fuel) this args h =
    match e with
    | Atom T m_value _ => Atom_call T m_value args h
    | Fact m_parts => Fact_call (call fuel) m_parts args h
    | Rule m_args _ => Rule_call m_args args h
    end.
Proof. intros Hthis. simpl. unfold deref. rewrite Hthis. reflexivity. Qed.

Lemma Rule_call_false m_args args h : Rule_call m_args args h = Ok (false, h).
Proof. unfold Rule_call. destruct (negb _); reflexivity. Qed.

(** C2: [Rule::operator()] returns false for every rule, every body and
    every argument list, whether or not the length of the argument list is
    the arity of the rule; it is also the answer of the virtual call on any
    address that holds a [Rule], and the store is left as it was. *)
Theorem Rule_call_always_fails (m_args m_predicates args : list loc) (h : heap)
    (this : loc) (fuel : nat) :
  Rule_call m_args args h = Ok (false, h)
  ∧ call (S fuel) this args (<[this := Rule m_args m_predicates]> h)
    = Ok (false, <[this := Rule m_args m_predicates]> h).
Proof.
  split; first apply Rule_call_false.
  rewrite (call_unfold _ _ _ _ (Rule m_args m_predicates)).
  - apply Rule_call_false.
  - apply lookup_insert_eq.
Qed.

(** C4: a [Fact] or a [Rule] called with an argument list whose length is
    not its arity answers false and leaves the store untouched; for a [Fact]
    this holds whatever its parts would do when called, since none is
    called. *)
Theorem arity_mismatch_fails (fuel : nat) (this : loc) (e : Expression ty val)
    (args : list loc) (h : heap) :
  h !! this = Some e →
  is_Atom e = false →
  length args ≠ arity e →
  call (S fuel) this args h = Ok (false, h)
  ∧ (∀ callee m_parts, e = Fact m_parts →
       Fact_call callee m_parts args h = Ok (false, h))
  ∧ (∀ m_args m_predicates, e = Rule m_args m_predicates →
       Rule_call m_args args h = Ok (false, h)).
Proof.
  intros Hthis Hkind Hlen.
  assert (Hfact : ∀ callee m_parts, e = Fact m_parts →
            Fact_call callee m_parts args h = Ok (false, h)).
  { intros callee m_parts ->. unfold Fact_call. simpl in Hlen.
    apply Nat.eqb_neq in Hlen. rewrite Hlen. reflexivity. }
  split; [|split].
  - rewrite (call_unfold _ _ _ _ e Hthis).
    destruct e as [T v u|m_parts|m_args m_predicates].
    + discriminate Hkind.
    + apply Hfact. reflexivity.
    + apply Rule_call_false.
  - exact Hfact.
  - intros m_args m_predicates _. apply Rule_call_false.
Qed.

Lemma Atom_call_bound T m_value arg arg_value h :
  h !! arg = Some (Atom T arg_value true) →
  Atom_call T m_value [arg] h = Ok (value_eq arg_value m_value, h).
Proof.
  intros Harg. unfold Atom_call. simpl. unfold deref. rewrite Harg. simpl.
  by rewrite bool_decide_eq_true_2.
Qed.

Lemma Atom_call_unbound T m_value arg arg_value h :
  h !! arg = Some (Atom T arg_value false) →
  Atom_call T m_value [arg] h = Ok (true, <[arg := Atom T m_value true]> h).
Proof.
  intros Harg. unfold Atom_call. simpl. unfold deref. rewrite Harg. simpl.
  by rewrite bool_decide_eq_true_2.
Qed.

(** C5: a part of type [T] holding [part_value], called on one bound atom
    of the same type holding [arg_value], answers what [operator==] of the
    value type answers on the two values: true when the value of the
    argument equals the value of the part, false when they differ; either
    way the store, hence the value and the status of the argument, is
    unchanged.  Nothing is assumed of [operator==]. *)
Theorem Atom_call_bound_arg (fuel : nat) (T : ty) (part_value arg_value : val)
    (part_unified : bool) (part arg : loc) (h : heap) :
  h !! part = Some (Atom T part_value part_unified) →
  h !! arg = Some (Atom T arg_value true) →
  (value_eq arg_value part_value = true →
     call (S fuel) part [arg] h = Ok (true, h))
  ∧ (value_eq arg_value part_value = false →
       call (S fuel) part [arg] h = Ok (false, h))
  ∧ (∀ b h', call (S fuel) part [arg] h = Ok (b, h') →
       b = value_eq arg_value part_value
       ∧ h' !! arg = Some (Atom T arg_value true)).
Proof.
  intros Hpart Harg.
  assert (Hcall : call (S fuel) part [arg] h
                  = Ok (value_eq arg_value part_value, h)).
  { rewrite (call_unfold _ _ _ _ _ Hpart). by apply Atom_call_bound. }
  rewrite Hcall. split; [|split].
  - intros ->. reflexivity.
  - intros ->. reflexivity.
  - intros b h' [= <- <-]. by split.
Qed.

(** C6: an atom of type [T] called on one argument whose dynamic type is
    not [Atom<T>], that is an atom of another type [T'], a [Fact] or a
    [Rule], answers false, as an ordinary boolean result, and leaves the
    store unchanged: an atom of another type is neither bound nor
    compared. *)
Theorem Atom_call_type_mismatch (fuel : nat) (T : ty) (part_value : val)
    (part_unified : bool) (part arg : loc) (e : Expression ty val) (h : heap) :
  h !! part = Some (Atom T part_value part_unified) →
  h !! arg = Some e →
  other_dynamic_type T e →
  Atom_call T part_value [arg] h = Ok (false, h)
  ∧ call (S fuel) part [arg] h = Ok (false, h).
Proof.
  intros Hpart Harg Hty.
  assert (Hcall : Atom_call T part_value [arg] h = Ok (false, h)).
  { unfold Atom_call. simpl. unfold deref. rewrite Harg. simpl.
    destruct e as [T' x u| |]; simpl in *; [|reflexivity..].
    rewrite bool_decide_eq_false_2 by exact Hty. reflexivity. }
  split; first exact Hcall.
  rewrite (call_unfold _ _ _ _ _ Hpart). exact Hcall.
Qed.

(** C9, on the code: with an empty argument vector [Atom<T>::operator()]
    reads [args[0]] before it tests [args.size()], which is a read past the
    end of the vector and not the answer false; the same through the
    virtual call on any address that holds an atom. *)
Theorem Atom_call_empty_args (T : ty) (m_value : val) (unified : bool)
    (this : loc) (fuel : nat) (h : heap) :
  Atom_call T m_value [] h = Fault
  ∧ call (S fuel) this [] (<[this := Atom T m_value unified]> h) = Fault.
Proof.
  split; [reflexivity|].
  rewrite (call_unfold _ _ _ _ (Atom T m_value unified)).
  - reflexivity.
  - apply lookup_insert_eq.
Qed.

(** With two or more arguments the read of [args[0]] is in range and the
    size test then answers false, the store unchanged. *)
Lemma Atom_call_many_args (T : ty) (m_value : val) (a b : loc)
    (rest : list loc) (h : heap) :
  Atom_call T m_value (a :: b :: rest) h = Ok (false, h).
Proof. reflexivity. Qed.

(** ** The rollback: [ununified_positions] and [restore_ununified] *)

Lemma bind_Ok {A B : Type} (r : result A) (k : A → result B) (b : B) :
  (r ≫= k) = Ok b → ∃ a, r = Ok a ∧ k a = Ok b.
Proof. destruct r as [a| |]; simpl; intros Hk; try discriminate. eauto. Qed.

Lemma at_index_Ok {A : Type} (v : list A) (i : nat) (x : A) :
  at_index v i = Ok x ↔ v !! i = Some x.
Proof. unfold at_index. destruct (v !! i); split; intros [=]; congruence. Qed.

Lemma deref_Ok h p e : deref h p = Ok e ↔ h !! p = Some e.
Proof. unfold deref. destruct (h !! p); split; intros [=]; congruence. Qed.

Lemma set_unified_idemp (u : bool) e :
  set_unified u (set_unified u e) = set_unified u e.
Proof. destruct e; reflexivity. Qed.

Lemma set_unified_not_Atom (u : bool) e :
  is_Atom e = false → set_unified u e = e.
Proof. destruct e; simpl; intros; congruence. Qed.

(** The objects [restore_ununified] writes to are the arguments at the
    recorded positions; each ends with its status cleared. *)
Lemma restore_ununified_lookup positions args : ∀ h h',
  restore_ununified positions args h = Ok h' →
  ∀ p, h' !! p =
       if decide (p ∈ omap (args !!.) positions)
       then set_unified false <$> h !! p
       else h !! p.
Proof.
  induction positions as [|pos rest IH]; intros h h' Hrun p; simpl in Hrun.
  - injection Hrun as <-. destruct (decide _) as [Hin|]; [|reflexivity].
    by apply elem_of_nil in Hin.
  - apply bind_Ok in Hrun as (q & Hq & Hrun). apply at_index_Ok in Hq.
    apply bind_Ok in Hrun as (e & He & Hrun). apply deref_Ok in He.
    rewrite (IH _ _ Hrun p). simpl. rewrite Hq. simpl.
    destruct (decide (p = q)) as [->|Hne].
    + rewrite lookup_insert_eq, He. simpl. rewrite set_unified_idemp.
      destruct (decide (q ∈ q :: _)) as [_|Hhere]; [by destruct (decide _)|].
      exfalso. apply Hhere, list_elem_of_here.
    + rewrite lookup_insert_ne by congruence.
      case_decide as Hin.
      * rewrite decide_True; [reflexivity|]. by apply list_elem_of_further.
      * rewrite decide_False; [reflexivity|].
        intros [?|?]%elem_of_cons; [congruence|by apply Hin].
Qed.

Lemma restore_ununified_total positions args : ∀ h,
  (∀ pos, pos ∈ positions → ∃ p, args !! pos = Some p ∧ is_Some (h !! p)) →
  ∃ h', restore_ununified positions args h = Ok h'.
Proof.
  induction positions as [|pos rest IH]; intros h Hok; simpl; [eauto|].
  destruct (Hok pos) as (p & Hp & e & He); [apply list_elem_of_here|].
  apply at_index_Ok in Hp as ->. simpl.
  apply deref_Ok in He as Hd. rewrite Hd. simpl.
  apply IH. intros pos' Hpos'.
  destruct (Hok pos') as (p' & Hp' & Hsome); [by apply list_elem_of_further|].
  exists p'. split; [assumption|].
  destruct (decide (p = p')) as [<-|Hne].
  - rewrite lookup_insert_eq. eauto.
  - by rewrite lookup_insert_ne.
Qed.

(** C10: a [Fact] or a [Rule] always reports that it is unified, and
    [set_unified] does not change it, whatever the flag; hence an object of
    these classes is the same before and after [restore_ununified], and an
    object that [restore_ununified] did change is an atom, which kept its
    type and its value and ended with its status cleared. *)
Theorem Fact_Rule_status_fixed e :
  is_Atom e = false →
  is_unified e = true
  ∧ (∀ v : bool, set_unified v e = e)
  ∧ (∀ positions args h h' p,
       restore_ununified positions args h = Ok h' →
       h !! p = Some e → h' !! p = Some e)
  ∧ (∀ positions args h h' p,
       restore_ununified positions args h = Ok h' →
       h' !! p = h !! p
       ∨ ∃ T x u, h !! p = Some (Atom T x u) ∧ h' !! p = Some (Atom T x false)).
Proof.
  intros Hkind. split; [|split; [|split]].
  - destruct e; [discriminate Hkind|reflexivity..].
  - intros v. by apply set_unified_not_Atom.
  - intros positions args h h' p Hrun Hp.
    rewrite (restore_ununified_lookup _ _ _ _ Hrun p).
    case_decide; [|assumption].
    rewrite Hp. simpl. by rewrite set_unified_not_Atom.
  - intros positions args h h' p Hrun.
    rewrite (restore_ununified_lookup _ _ _ _ Hrun p).
    case_decide; [|by left].
    destruct (h !! p) as [[T x u|parts|margs preds]|] eqn:Hp; simpl; eauto 10.
Qed.

(** ** Atomicity of a failed [Fact] unification *)

Lemma ununified_positions_from_spec args : ∀ i h positions,
  ununified_positions_from i args h = Ok positions →
  (∀ a, a ∈ args → is_Some (h !! a))
  ∧ (∀ pos, pos ∈ positions ↔
       ∃ k a, pos = i + k ∧ args !! k = Some a ∧ status h a = Some false).
Proof.
  induction args as [|each rest IH]; intros i h positions Hrun; simpl in Hrun.
  - injection Hrun as <-. split.
    + intros a Ha. by apply elem_of_nil in Ha.
    + intros pos. split.
      * intros Hpos. by apply elem_of_nil in Hpos.
      * intros (k & a & _ & Hk & _). by rewrite lookup_nil in Hk.
  - apply bind_Ok in Hrun as (e & He & Hrun). apply deref_Ok in He.
    apply bind_Ok in Hrun as (ps & Hps & Hrun). injection Hrun as <-.
    destruct (IH _ _ _ Hps) as [Halloc Hiff]. split.
    + intros a [->|Ha]%elem_of_cons; eauto.
    + intros pos. split.
      * intros Hpos.
        assert (Hcases : (pos = i ∧ is_unified e = false) ∨ pos ∈ ps).
        { destruct (is_unified e); [by right|].
          apply elem_of_cons in Hpos as [->|?]; auto. }
        destruct Hcases as [[-> Hu]|Hin].
        -- exists 0, each. split; [lia|]. split; [reflexivity|].
           unfold status. rewrite He. simpl. by rewrite Hu.
        -- apply Hiff in Hin as (k & a & -> & Hk & Ha).
           exists (S k), a. split; [lia|]. by split.
      * intros (k & a & -> & Hk & Ha). destruct k as [|k]; simpl in Hk.
        -- injection Hk as ->. unfold status in Ha. rewrite He in Ha.
           simpl in Ha. injection Ha as ->.
           rewrite Nat.add_0_r. apply list_elem_of_here.
        -- assert (i + S k ∈ ps) as Hin.
           { apply Hiff. exists k, a. split; [lia|]. by split. }
           destruct (is_unified e); [assumption|].
           by apply list_elem_of_further.
Qed.

(** The addresses rolled back are the arguments that were not unified when
    the call started. *)
Lemma rollback_set args h positions :
  ununified_positions args h = Ok positions →
  ∀ p, p ∈ omap (args !!.) positions ↔ p ∈ args ∧ status h p = Some false.
Proof.
  intros Hrun p. apply ununified_positions_from_spec in Hrun as [_ Hiff].
  rewrite list_elem_of_omap. split.
  - intros (pos & Hpos & Hp). apply Hiff in Hpos as (k & a & -> & Hk & Ha).
    simpl in Hp. rewrite Hk in Hp. injection Hp as <-.
    split; [|assumption]. apply list_elem_of_lookup. eauto.
  - intros [Hin Hst]. apply list_elem_of_lookup in Hin as [k Hk].
    exists k. split; [|assumption]. apply Hiff. exists k, p. by split.
Qed.

Lemma evolves_refl e : evolves e e.
Proof. destruct e as [T v [|]| |]; simpl; eauto. Qed.

Lemma evolves_trans e1 e2 e3 : evolves e1 e2 → evolves e2 e3 → evolves e1 e3.
Proof.
  destruct e1 as [T v [|]| |]; simpl; try (intros -> ?; assumption).
  intros (v2 & u2 & ->). destruct u2; simpl.
  - intros ->. eauto.
  - intros (v3 & u3 & ->). eauto.
Qed.

Lemma heap_evolves_refl h : heap_evolves h h.
Proof. intros p. destruct (h !! p) as [e|]; eauto using evolves_refl. Qed.

Lemma heap_evolves_trans h1 h2 h3 :
  heap_evolves h1 h2 → heap_evolves h2 h3 → heap_evolves h1 h3.
Proof.
  intros H12 H23 p. specialize (H12 p). specialize (H23 p).
  destruct (h1 !! p) as [e1|].
  - destruct H12 as (e2 & He2 & Hev12). rewrite He2 in H23.
    destruct H23 as (e3 & He3 & Hev23). eauto using evolves_trans.
  - rewrite H12 in H23. assumption.
Qed.

Lemma frame_refl args h : frame args h h.
Proof. intros p _. reflexivity. Qed.

Lemma frame_trans args h1 h2 h3 :
  frame args h1 h2 → frame args h2 h3 → frame args h1 h3.
Proof. intros H12 H23 p Hp. rewrite H23, H12; auto. Qed.

Lemma frame_weaken a args h h' : a ∈ args → frame [a] h h' → frame args h h'.
Proof.
  intros Ha Hfr p Hp. apply Hfr. intros ->%list_elem_of_singleton. auto.
Qed.

(** A unified object is never written to. *)
Lemma heap_evolves_unified h h' p e :
  heap_evolves h h' → h !! p = Some e → is_unified e = true → h' !! p = Some e.
Proof.
  intros Hev Hp Hu. specialize (Hev p). rewrite Hp in Hev.
  destruct Hev as (e' & He' & Hee). rewrite He'. f_equal.
  destruct e as [T v [|]| |]; simpl in *; congruence.
Qed.

Lemma Atom_call_spec T m_value args h b h' :
  Atom_call T m_value args h = Ok (b, h') →
  heap_evolves h h' ∧ frame args h h' ∧ (b = false → h' = h).
Proof.
  unfold Atom_call. intros Hrun.
  apply bind_Ok in Hrun as (a & Ha & Hrun). apply at_index_Ok in Ha.
  assert (Hkeep : Ok (false, h) = Ok (b, h') →
            heap_evolves h h' ∧ frame args h h' ∧ (b = false → h' = h)).
  { intros [= <- <-]. auto using heap_evolves_refl, frame_refl. }
  destruct (negb (length args =? 1)); [auto|].
  apply bind_Ok in Hrun as (arg & Harg & Hrun). apply deref_Ok in Harg.
  destruct (negb (is_Atom_of T arg)); [auto|].
  destruct arg as [T' x u| |]; [|auto..].
  destruct u; simpl in Hrun.
  - injection Hrun as <- <-. auto using heap_evolves_refl, frame_refl.
  - injection Hrun as <- <-. split; [|split; [|discriminate]].
    + intros p. destruct (decide (p = a)) as [->|Hne].
      * rewrite Harg, lookup_insert_eq. simpl. eauto.
      * rewrite lookup_insert_ne by congruence.
        destruct (h !! p); eauto using evolves_refl.
    + intros p Hp. rewrite lookup_insert_ne; [reflexivity|].
      intros <-. apply Hp. apply list_elem_of_lookup. eauto.
Qed.

(** Rolling back after a partial run gives every object the status it had
    when the call started. *)
Lemma rollback_restores args h positions hm h' :
  ununified_positions args h = Ok positions →
  heap_evolves h hm → frame args h hm →
  restore_ununified positions args hm = Ok h' →
  heap_evolves h h' ∧ frame args h h' ∧ ∀ p, status h' p = status h p.
Proof.
  intros Hpos Hev Hfr Hrun.
  pose proof (rollback_set _ _ _ Hpos) as Hset.
  pose proof (restore_ununified_lookup _ _ _ _ Hrun) as Hlook.
  assert (Hpoint : ∀ p,
    match h !! p with
    | Some e => ∃ e', h' !! p = Some e' ∧ evolves e e'
                      ∧ is_unified e' = is_unified e
    | None => h' !! p = None
    end ∧ (p ∉ args → h' !! p = h !! p)).
  { intros p. rewrite (Hlook p). specialize (Hset p).
    pose proof (Hev p) as Hevp.
    destruct (decide (p ∈ omap (args !!.) positions)) as [Hin|Hout].
    - apply Hset in Hin as [Hin Hst]. split; [|intros Hnot; by destruct Hnot].
      unfold status in Hst. destruct (h !! p) as [e|]; [|discriminate Hst].
      simpl in Hst. injection Hst as Hu.
      destruct Hevp as (em & -> & Hem). simpl.
      destruct e as [T v u| |]; simpl in Hu; try discriminate Hu. subst u.
      simpl in Hem. destruct Hem as (v' & u' & ->). simpl. eauto 10.
    - split; [|intros Hnot; by apply Hfr].
      destruct (h !! p) as [e|] eqn:Hp; [|assumption].
      destruct (is_unified e) eqn:Hu.
      + exists e. rewrite (heap_evolves_unified h hm p e Hev Hp Hu).
        auto using evolves_refl.
      + destruct (decide (p ∈ args)) as [Hin|Hnot].
        * exfalso. apply Hout, Hset. split; [assumption|].
          unfold status. rewrite Hp. simpl. by rewrite Hu.
        * rewrite (Hfr p Hnot), Hp. eauto using evolves_refl. }
  split; [|split].
  - intros p. destruct (Hpoint p) as [Hp _].
    destruct (h !! p); [|assumption].
    destruct Hp as (e' & ? & ? & _). eauto.
  - intros p. apply Hpoint.
  - intros p. destruct (Hpoint p) as [Hp _]. unfold status.
    destruct (h !! p); [|by rewrite Hp].
    destruct Hp as (e' & -> & _ & Hu). simpl. by rewrite Hu.
Qed.

Section FactSpec.
Variable callee : loc → list loc → heap → result (bool * heap).
Hypothesis callee_spec : ∀ this a h b h',
  callee this [a] h = Ok (b, h') → transactional [a] h b h'.

(** The loop either commits every position, or stops at the first
    failing one and hands the store reached so far to the rollback. *)
Lemma Fact_loop_spec m_parts args positions n : ∀ i h b h',
  Fact_loop callee m_parts args positions n i h = Ok (b, h') →
  ∃ hm, heap_evolves h hm ∧ frame args h hm
        ∧ if b then h' = hm
          else restore_ununified positions args hm = Ok h'.
Proof.
  induction n as [|n IH]; intros i h b h' Hrun; simpl in Hrun.
  - injection Hrun as <- <-. exists h.
    auto using heap_evolves_refl, frame_refl.
  - apply bind_Ok in Hrun as (a & Ha & Hrun). apply at_index_Ok in Ha.
    apply bind_Ok in Hrun as (part & _ & Hrun).
    apply bind_Ok in Hrun as ([b1 h1] & Hcall & Hrun). simpl in Hrun.
    apply callee_spec in Hcall as (Hev1 & Hfr1 & _).
    assert (Hfr : frame args h h1).
    { apply (frame_weaken a); [|assumption].
      apply list_elem_of_lookup. eauto. }
    destruct b1; simpl in Hrun.
    + apply IH in Hrun as (hm & Hev & Hfrm & Hend). exists hm.
      eauto using heap_evolves_trans, frame_trans.
    + apply bind_Ok in Hrun as (h2 & Hrestore & Hrun).
      injection Hrun as <- <-. exists h1. auto.
Qed.

Lemma Fact_call_spec m_parts args h b h' :
  Fact_call callee m_parts args h = Ok (b, h') → transactional args h b h'.
Proof.
  unfold Fact_call. intros Hrun.
  destruct (negb (length args =? length m_parts)).
  { injection Hrun as <- <-.
    repeat split; auto using heap_evolves_refl, frame_refl. }
  apply bind_Ok in Hrun as (positions & Hpos & Hrun).
  apply Fact_loop_spec in Hrun as (hm & Hev & Hfr & Hend).
  destruct b.
  - subst hm. repeat split; [assumption..|discriminate].
  - destruct (rollback_restores _ _ _ _ _ Hpos Hev Hfr Hend)
      as (Hev' & Hfr' & Hst).
    repeat split; auto.
Qed.
End FactSpec.

Lemma call_spec fuel : ∀ this args h b h',
  call fuel this args h = Ok (b, h') → transactional args h b h'.
Proof.
  induction fuel as [|fuel IH]; intros this args h b h' Hrun; simpl in Hrun.
  - discriminate Hrun.
  - apply bind_Ok in Hrun as (e & _ & Hrun).
    destruct e as [T m_value u|m_parts|m_args m_predicates].
    + apply Atom_call_spec in Hrun as (Hev & Hfr & Hfalse).
      repeat split; [assumption..|]. intros Hb p. by rewrite Hfalse.
    + apply Fact_call_spec in Hrun; [assumption|]. intros. by eapply IH.
    + rewrite Rule_call_false in Hrun. injection Hrun as <- <-.
      repeat split; auto using heap_evolves_refl, frame_refl.
Qed.

(** An answer does not depend on the fuel that was left over. *)
Lemma Fact_loop_callee_mono callee1 callee2 m_parts args positions n :
  (∀ this a h r, callee1 this a h = Ok r → callee2 this a h = Ok r) →
  ∀ i h r, Fact_loop callee1 m_parts args positions n i h = Ok r →
           Fact_loop callee2 m_parts args positions n i h = Ok r.
Proof.
  intros Hmono. induction n as [|n IH]; intros i h r Hrun; [exact Hrun|].
  cbn [Fact_loop] in *.
  apply bind_Ok in Hrun as (a & -> & Hrun).
  apply bind_Ok in Hrun as (part & -> & Hrun).
  apply bind_Ok in Hrun as (r1 & Hcall & Hrun).
  simpl. rewrite (Hmono _ _ _ _ Hcall). simpl.
  destruct (negb r1.1); [exact Hrun|]. by apply IH.
Qed.

Lemma call_fuel_mono fuel : ∀ this args h r,
  call fuel this args h = Ok r → call (S fuel) this args h = Ok r.
Proof.
  induction fuel as [|fuel IH]; intros this args h r Hrun; [discriminate Hrun|].
  cbn [call] in Hrun. apply bind_Ok in Hrun as (e & He & Hrun).
  apply deref_Ok in He. rewrite (call_unfold _ _ _ _ _ He).
  destruct e as [T m_value u|m_parts|m_args m_predicates]; [exact Hrun| |exact Hrun].
  unfold Fact_call in *. destruct (negb _); [exact Hrun|].
  apply bind_Ok in Hrun as (positions & -> & Hrun). simpl.
  by apply (Fact_loop_callee_mono (call fuel)).
Qed.

(** C1, as the code has it: when a [Fact] answers false, every object has
    the unification status it had before the call, and every atom that was
    unified before the call still holds its value; objects outside the
    argument list are untouched, and an argument that was not unified is
    still an atom of its type (its stored value is not promised). *)
Theorem Fact_call_failure_atomic (fuel : nat) (m_parts args : list loc)
    (h h' : heap) :
  Fact_call (call fuel) m_parts args h = Ok (false, h') →
  (∀ p, status h' p = status h p)
  ∧ (∀ p T v, h !! p = Some (Atom T v true) → h' !! p = Some (Atom T v true))
  ∧ (∀ p, p ∉ args → h' !! p = h !! p)
  ∧ (∀ p T v, h !! p = Some (Atom T v false) →
       ∃ v', h' !! p = Some (Atom T v' false)).
Proof.
  intros Hrun.
  apply Fact_call_spec in Hrun as (Hev & Hfr & Hst);
    [|intros; by eapply call_spec].
  specialize (Hst eq_refl). split; [|split; [|split]].
  - exact Hst.
  - intros p T v Hp. by apply (heap_evolves_unified h).
  - exact Hfr.
  - intros p T v Hp. specialize (Hev p). specialize (Hst p).
    unfold status in Hst. rewrite Hp in Hev, Hst.
    destruct Hev as (e' & He' & v' & u' & ->). rewrite He' in Hst.
    simpl in Hst. injection Hst as ->. eauto.
Qed.

(** ** Building the database *)

Lemma new_spec e h p h' :
  new e h = (p, h') → h !! p = None ∧ h' = <[p := e]> h.
Proof.
  unfold new. intros [= <- <-]. split; [|reflexivity].
  apply not_elem_of_dom. apply is_fresh.
Qed.

Lemma push_back_at_lookup (key key' : name) (p : loc)
    (m : gmap name (list loc)) :
  push_back_at key p m !! key' =
    if decide (key = key') then Some (default [] (m !! key) ++ [p])
    else m !! key'.
Proof.
  unfold push_back_at, map_index.
  destruct (m !! key) as [v|] eqn:Hkey; simpl.
  - rewrite lookup_insert. by case_decide.
  - rewrite lookup_insert. case_decide; [reflexivity|].
    rewrite lookup_insert_ne by assumption. reflexivity.
Qed.

(** C3: after [add_fact(key, alice, bob)] with two values of one type, the
    new fact is the last entry under [key]; called on a bound atom whose
    value [asked] is [==] to [alice] (for a string, the same string) and
    an atom that is not unified, it answers true and the second argument
    ends unified with the value [bob]. *)
Theorem add_fact_then_unify (key : name) (T : ty) (alice bob asked init : val)
    (h : heap) (db : Database name) (a1 a2 : loc) (fuel : nat) :
  let '(fact, h1, db1) := add_fact key [Value T alice; Value T bob] h db in
  value_eq asked alice = true →
  h1 !! a1 = Some (Atom T asked true) →
  h1 !! a2 = Some (Atom T init false) →
  m_expressions db1 !! key
    = Some (default [] (m_expressions db !! key) ++ [fact])
  ∧ ∃ h2, call (S (S fuel)) fact [a1; a2] h1 = Ok (true, h2)
          ∧ h2 !! a2 = Some (Atom T bob true)
          ∧ h2 !! a1 = Some (Atom T asked true).
Proof.
  set (p1 := fresh (dom h)).
  set (h' := <[p1 := Atom T alice true]> h).
  set (p2 := fresh (dom h')).
  set (h'' := <[p2 := Atom T bob true]> h').
  set (fact := fresh (dom h'')).
  change (add_fact key [Value T alice; Value T bob] h db)
    with (fact, <[fact := Fact [p1; p2]]> h'',
          {| m_expressions := push_back_at key fact (m_expressions db);
             m_atoms := (m_atoms db ++ [p1]) ++ [p2] |}).
  assert (h !! p1 = None) as Hf1 by apply not_elem_of_dom, is_fresh.
  assert (h' !! p2 = None) as Hf2 by apply not_elem_of_dom, is_fresh.
  assert (h'' !! fact = None) as Hf3 by apply not_elem_of_dom, is_fresh.
  clearbody p1. subst h'. clearbody p2. subst h''. clearbody fact.
  cbv beta iota zeta.
  intros Hasked Ha1 Ha2. split.
  { cbn [m_expressions]. rewrite push_back_at_lookup.
    by rewrite decide_True. }
  assert (p1 ≠ p2) as Hp12.
  { intros ->. by rewrite lookup_insert_eq in Hf2. }
  assert (p2 ≠ fact) as Hp2f.
  { intros ->. by rewrite lookup_insert_eq in Hf3. }
  assert (p1 ≠ fact) as Hp1f.
  { intros ->. rewrite lookup_insert_ne, lookup_insert_eq in Hf3; done. }
  set (h1 := <[fact := Fact [p1; p2]]> _) in *.
  assert (h1 !! fact = Some (Fact [p1; p2])) as Hfact
    by apply lookup_insert_eq.
  assert (h1 !! p2 = Some (Atom T bob true)) as Hp2.
  { unfold h1. rewrite lookup_insert_ne by congruence.
    apply lookup_insert_eq. }
  assert (h1 !! p1 = Some (Atom T alice true)) as Hp1.
  { unfold h1. rewrite !lookup_insert_ne by congruence.
    apply lookup_insert_eq. }
  assert (a1 ≠ a2) as Ha12 by (intros ->; congruence).
  exists (<[a2 := Atom T bob true]> h1).
  rewrite lookup_insert_eq, lookup_insert_ne by congruence.
  split; [|by split].
  rewrite (call_unfold _ _ _ _ _ Hfact).
  assert (Hcall1 : call (S fuel) p1 [a1] h1 = Ok (true, h1)).
  { rewrite (call_unfold _ _ _ _ _ Hp1), (Atom_call_bound _ _ _ _ _ Ha1).
    by rewrite Hasked. }
  assert (Hcall2 : call (S fuel) p2 [a2] h1
                   = Ok (true, <[a2 := Atom T bob true]> h1)).
  { rewrite (call_unfold _ _ _ _ _ Hp2).
    apply (Atom_call_unbound _ _ _ _ _ Ha2). }
  set (callee := call (S fuel)) in *. clearbody callee.
  unfold Fact_call, ununified_positions. simpl. unfold deref.
  rewrite Ha1, Ha2. simpl. rewrite Hcall1. simpl. rewrite Hcall2.
  reflexivity.
Qed.

Lemma new_mono e h p h' q :
  new e h = (p, h') → is_Some (h !! q) → is_Some (h' !! q).
Proof.
  intros [Hfree ->]%new_spec Hq. rewrite lookup_insert_ne; [assumption|].
  intros <-. rewrite Hfree in Hq. by destruct Hq.
Qed.

Lemma add_atoms_mono atoms : ∀ so_far h pool so_far' h' pool' q,
  add_atoms atoms so_far h pool = (so_far', h', pool') →
  is_Some (h !! q) → is_Some (h' !! q).
Proof.
  induction atoms as [|atom rest IH];
    intros so_far h pool so_far' h' pool' q Hrun Hq; cbn [add_atoms] in Hrun.
  - by injection Hrun as _ <- _.
  - unfold add_atom in Hrun. destruct (new _ h) as [p h1] eqn:Hnew.
    eapply IH; [eassumption|]. by eapply new_mono.
Qed.

Lemma add_args_mono args : ∀ so_far h pool so_far' h' pool' q,
  add_args args so_far h pool = (so_far', h', pool') →
  is_Some (h !! q) → is_Some (h' !! q).
Proof.
  induction args as [|arg rest IH];
    intros so_far h pool so_far' h' pool' q Hrun Hq; cbn [add_args] in Hrun.
  - by injection Hrun as _ <- _.
  - destruct arg as [expr|T init]; cbn [add_arg] in Hrun.
    + by eapply IH.
    + destruct (new _ h) as [p h1] eqn:Hnew.
      eapply IH; [eassumption|]. by eapply new_mono.
Qed.

(** Every expression registered by [add_fact] and [add_rule] is a live
    object, whatever pointers the caller supplied. *)
Lemma built_registered_allocated allowed h0 h db :
  built allowed h0 h db →
  ∀ key exprs p, m_expressions db !! key = Some exprs → p ∈ exprs →
                 is_Some (h !! p).
Proof.
  assert (Hreg : ∀ key q h h1 h2 db pool e,
    (∀ key exprs p, m_expressions db !! key = Some exprs → p ∈ exprs →
                    is_Some (h !! p)) →
    (∀ p, is_Some (h !! p) → is_Some (h1 !! p)) →
    new e h1 = (q, h2) →
    ∀ key' exprs p,
      m_expressions {| m_expressions := push_back_at key q (m_expressions db);
                       m_atoms := pool |} !! key' = Some exprs →
      p ∈ exprs → is_Some (h2 !! p)).
  { intros key q h1 h2 h3 db1 pool e Hold Hmono Hnew key' exprs p Hkey Hp.
    cbn [m_expressions] in Hkey. rewrite push_back_at_lookup in Hkey.
    assert (Hkept : ∀ k v, m_expressions db1 !! k = Some v → p ∈ v →
                           is_Some (h3 !! p)).
    { intros k v Hk Hv. eapply new_mono; [eassumption|]. eauto. }
    case_decide as Hk; [|eauto].
    injection Hkey as <-.
    apply elem_of_app in Hp as [Hp|Hp%list_elem_of_singleton].
    - destruct (m_expressions db1 !! key) as [old|] eqn:Hlook; [eauto|].
      by apply elem_of_nil in Hp.
    - subst p. apply new_spec in Hnew as [_ ->].
      rewrite lookup_insert_eq. eauto. }
  induction 1 as [|h db key atoms _ IH|h db key args _ IH Hptr].
  - intros key exprs p Hkey. cbn [empty_db m_expressions] in Hkey.
    by rewrite lookup_empty in Hkey.
  - unfold add_fact.
    destruct (add_atoms atoms [] h (m_atoms db)) as [[so_far h1] pool] eqn:Hatoms.
    destruct (new (Fact so_far) h1) as [fact h2] eqn:Hnew. cbn [fst snd].
    eapply Hreg; [exact IH| |exact Hnew].
    intros p. by eapply add_atoms_mono.
  - unfold add_rule.
    destruct (add_args args [] h (m_atoms db)) as [[so_far h1] pool] eqn:Hargs.
    destruct (new (Rule so_far []) h1) as [rule h2] eqn:Hnew. cbn [fst snd].
    eapply Hreg; [exact IH| |exact Hnew].
    intros p. by eapply add_args_mono.
Qed.

Lemma find_if_arity_spec n exprs h :
  (∀ p, p ∈ exprs → is_Some (h !! p)) →
  ∃ r, find_if_arity n exprs h = Ok r ∧ first_with_arity h n exprs r.
Proof.
  induction exprs as [|expr rest IH]; intros Halloc; simpl.
  - exists None. split; [reflexivity|].
    intros q e' Hq. by apply elem_of_nil in Hq.
  - destruct (Halloc expr) as [e He]; [apply list_elem_of_here|].
    unfold deref. rewrite He. simpl.
    destruct (arity e =? n) eqn:Har.
    + apply Nat.eqb_eq in Har. exists (Some expr). split; [reflexivity|].
      exists 0, e. repeat split; [assumption..|]. intros j q e' Hj. lia.
    + apply Nat.eqb_neq in Har.
      destruct IH as (r & -> & Hr).
      { intros p Hp. apply Halloc. by apply list_elem_of_further. }
      exists r. split; [reflexivity|]. destruct r as [p|]; simpl in *.
      * destruct Hr as (i & e1 & Hi & Hp & Hn & Hbefore).
        exists (S i), e1. repeat split; [assumption..|].
        intros [|j] q e' Hj Hq Hq'; simpl in Hq.
        -- injection Hq as <-. congruence.
        -- apply (Hbefore j q e'); [lia|assumption..].
      * intros q e' [->|Hq]%elem_of_cons Hq'; [congruence|eauto].
Qed.

(** C7: [get(key, n)] returns the entry of lowest index under [key] whose
    arity is [n], and [nullptr] when [key] has no entry or none of that
    arity; the store and the database are as before, so no atom changed and
    no unification was tried.  The lowest index is the earliest
    registration: [add_fact] and [add_rule] put their expression after all
    the entries under the key. *)
Theorem get_first_match (key : name) (n : nat) (h : heap) (db : Database name) :
  (∀ exprs p, m_expressions db !! key = Some exprs → p ∈ exprs →
              is_Some (h !! p)) →
  (∃ r, get key n h db = Ok (r, h, db)
        ∧ first_with_arity h n (default [] (m_expressions db !! key)) r
        ∧ (m_expressions db !! key = None → r = None))
  ∧ (∀ atoms,
       m_expressions (add_fact key atoms h db).2 !! key
       = Some (default [] (m_expressions db !! key)
               ++ [(add_fact key atoms h db).1.1]))
  ∧ (∀ args,
       m_expressions (add_rule key args h db).2 !! key
       = Some (default [] (m_expressions db !! key)
               ++ [(add_rule key args h db).1.1])).
Proof.
  intros Halloc. split; [|split].
  - unfold get, map_index.
    destruct (m_expressions db !! key) as [exprs|] eqn:Hkey; simpl.
    + destruct (find_if_arity_spec n exprs h) as (r & Hr & Hfirst).
      { intros p Hp. by apply (Halloc exprs). }
      exists r. rewrite Hr. simpl. destruct db. by repeat split.
    + exists None. repeat split.
      intros q e' Hq. by apply elem_of_nil in Hq.
  - intros atoms. unfold add_fact.
    destruct (add_atoms atoms [] h (m_atoms db)) as [[so_far h1] pool].
    destruct (new (Fact so_far) h1) as [fact h2]. cbn [fst snd m_expressions].
    rewrite push_back_at_lookup. by rewrite decide_True.
  - intros args. unfold add_rule.
    destruct (add_args args [] h (m_atoms db)) as [[so_far h1] pool].
    destruct (new (Rule so_far []) h1) as [rule h2]. cbn [fst snd m_expressions].
    rewrite push_back_at_lookup. by rewrite decide_True.
Qed.

(** ** Ownership of the atoms a database reaches *)

Lemma owned_child h pool root e c :
  owned h pool root → h !! root = Some e → c ∈ children e → owned h pool c.
Proof. intros Hown Hroot Hc p Hreach. apply Hown. by eapply reach_child. Qed.

(** A new object at an unused address: what was owned stays owned, and the
    new object is owned when its children were and, if it is an atom, it is
    put in the pool. *)
Lemma owned_insert h pool pool' q e :
  pool ⊆ pool' →
  (is_Atom e = true → q ∈ pool') →
  (∀ c, c ∈ children e → owned h pool c) →
  h !! q = None →
  ∀ root, root = q ∨ owned h pool root → owned (<[q := e]> h) pool' root.
Proof.
  intros Hsub Hatom Hch Hq root Hroot p Hreach. revert Hroot.
  induction Hreach as [p|root e0 c p Hlook Hc Hreach IH]; intros Hroot Hp.
  - destruct (decide (p = q)) as [->|Hne].
    + rewrite lookup_insert_eq in Hp. simpl in Hp. injection Hp as Hp. auto.
    + rewrite lookup_insert_ne in Hp by congruence.
      destruct Hroot as [->|Hown]; [done|].
      apply Hsub, Hown; [apply reach_here|assumption].
  - apply IH; [|assumption]. right.
    destruct (decide (root = q)) as [->|Hne].
    + rewrite lookup_insert_eq in Hlook. injection Hlook as <-. by apply Hch.
    + rewrite lookup_insert_ne in Hlook by congruence.
      destruct Hroot as [->|Hown]; [done|]. by eapply owned_child.
Qed.

Lemma owned_new_atom T v u h pool p h' :
  new (Atom T v u) h = (p, h') →
  (∀ root, owned h pool root → owned h' (pool ++ [p]) root)
  ∧ owned h' (pool ++ [p]) p.
Proof.
  intros [Hfree ->]%new_spec.
  assert (Hins : ∀ root, root = p ∨ owned h pool root →
                   owned (<[p := Atom T v u]> h) (pool ++ [p]) root).
  { apply owned_insert; [|..|assumption].
    - intros x Hx. apply elem_of_app. by left.
    - intros _. apply elem_of_app. right. apply list_elem_of_here.
    - intros c Hc. by apply elem_of_nil in Hc. }
  split; [intros root Hroot|]; apply Hins; auto.
Qed.

Lemma add_atoms_owned atoms : ∀ so_far h pool so_far' h' pool',
  add_atoms atoms so_far h pool = (so_far', h', pool') →
  (∀ c, c ∈ so_far → owned h pool c) →
  (∀ root, owned h pool root → owned h' pool' root)
  ∧ (∀ c, c ∈ so_far' → owned h' pool' c).
Proof.
  induction atoms as [|atom rest IH];
    intros so_far h pool so_far' h' pool' Hrun Hso; cbn [add_atoms] in Hrun.
  - injection Hrun as <- <- <-. auto.
  - unfold add_atom in Hrun.
    destruct atom as [T v|T v];
      destruct (new _ h) as [p h1] eqn:Hnew;
      destruct (owned_new_atom _ _ _ _ pool _ _ Hnew) as [Hkeep Hp];
      (apply IH in Hrun as [Hkeep' Hso'];
       [split; auto
       |intros c [Hc|Hc%list_elem_of_singleton]%elem_of_app; subst; auto]).
Qed.

Lemma add_args_owned args : ∀ so_far h pool so_far' h' pool',
  add_args args so_far h pool = (so_far', h', pool') →
  (∀ p, Pointer p ∈ args → owned h pool p) →
  (∀ c, c ∈ so_far → owned h pool c) →
  (∀ root, owned h pool root → owned h' pool' root)
  ∧ (∀ c, c ∈ so_far' → owned h' pool' c).
Proof.
  induction args as [|arg rest IH];
    intros so_far h pool so_far' h' pool' Hrun Hptr Hso; cbn [add_args] in Hrun.
  - injection Hrun as <- <- <-. auto.
  - destruct arg as [expr|T init]; cbn [add_arg] in Hrun.
    + apply IH in Hrun as [Hkeep' Hso']; [auto| |].
      * intros p Hp. apply Hptr. by apply list_elem_of_further.
      * intros c [Hc|Hc%list_elem_of_singleton]%elem_of_app; [auto|].
        subst c. apply Hptr, list_elem_of_here.
    + destruct (new _ h) as [p h1] eqn:Hnew.
      destruct (owned_new_atom _ _ _ _ pool _ _ Hnew) as [Hkeep Hp].
      apply IH in Hrun as [Hkeep' Hso'].
      * split; auto.
      * intros q Hq. apply Hkeep, Hptr. by apply list_elem_of_further.
      * intros c [Hc|Hc%list_elem_of_singleton]%elem_of_app; subst; auto.
Qed.

(** Registering a new expression whose children are owned. *)
Lemma pool_invariant_register key e h db h1 pool q h2 :
  pool_invariant h db →
  (∀ root, owned h (m_atoms db) root → owned h1 pool root) →
  (∀ c, c ∈ children e → owned h1 pool c) →
  is_Atom e = false →
  new e h1 = (q, h2) →
  pool_invariant h2 {| m_expressions := push_back_at key q (m_expressions db);
                       m_atoms := pool |}.
Proof.
  intros Hinv Hkeep Hch Hkind [Hfree ->]%new_spec key' exprs root Hkey Hroot.
  cbn [m_expressions m_atoms] in *.
  apply (owned_insert _ pool); [done|congruence|assumption..|].
  rewrite push_back_at_lookup in Hkey. case_decide as Hk.
  - injection Hkey as <-.
    apply elem_of_app in Hroot as [Hold|Hnew%list_elem_of_singleton];
      [|by left].
    right. destruct (m_expressions db !! key) as [old|] eqn:Hlook.
    + apply Hkeep. by apply (Hinv key old).
    + by apply elem_of_nil in Hold.
  - right. apply Hkeep. by apply (Hinv key' exprs).
Qed.

(** C8, as the code has it: after any sequence of [add_fact] and [add_rule]
    calls in which every pointer handed to [add_rule] leads only to atoms
    that are already in [m_atoms], every atom reachable from an expression
    registered under a name is in [m_atoms]. *)
Theorem pool_invariant_built (h0 h : heap) (db : Database name) :
  built owned_pointer h0 h db → pool_invariant h db.
Proof.
  induction 1 as [|h db key atoms _ IH|h db key args _ IH Hptr].
  - intros key exprs root Hkey. cbn [empty_db m_expressions] in Hkey.
    by rewrite lookup_empty in Hkey.
  - unfold add_fact.
    destruct (add_atoms atoms [] h (m_atoms db)) as [[so_far h1] pool] eqn:Hatoms.
    destruct (new (Fact so_far) h1) as [fact h2] eqn:Hnew. cbn [fst snd].
    apply add_atoms_owned in Hatoms as [Hkeep Hso].
    + by apply (pool_invariant_register key (Fact so_far) h db h1).
    + intros c Hc. by apply elem_of_nil in Hc.
  - unfold add_rule.
    destruct (add_args args [] h (m_atoms db)) as [[so_far h1] pool] eqn:Hargs.
    destruct (new (Rule so_far []) h1) as [rule h2] eqn:Hnew. cbn [fst snd].
    apply add_args_owned in Hargs as [Hkeep Hso].
    + apply (pool_invariant_register key (Rule so_far []) h db h1);
        [assumption..| |reflexivity|assumption].
      simpl. intros c Hc. rewrite app_nil_r in Hc. auto.
    + exact Hptr.
    + intros c Hc. by apply elem_of_nil in Hc.
Qed.

(** ** Recording and restoring *)

Lemma ununified_positions_from_sorted args : ∀ i h positions,
  ununified_positions_from i args h = Ok positions →
  StronglySorted lt positions ∧ Forall (λ pos, i ≤ pos) positions.
Proof.
  induction args as [|each rest IH]; intros i h positions Hrun; simpl in Hrun.
  - injection Hrun as <-. split; constructor.
  - apply bind_Ok in Hrun as (e & _ & Hrun).
    apply bind_Ok in Hrun as (ps & Hps & Hrun). injection Hrun as <-.
    apply IH in Hps as [Hsorted Hge].
    assert (Hge' : Forall (λ pos, i ≤ pos) ps).
    { eapply Forall_impl; [exact Hge|]. simpl. lia. }
    destruct (is_unified e); [by split|]. split.
    + constructor; [assumption|].
      eapply Forall_impl; [exact Hge|]. simpl. lia.
    + constructor; [lia|assumption].
Qed.

Lemma ununified_positions_from_total args : ∀ i h,
  (∀ a, a ∈ args → is_Some (h !! a)) →
  ∃ positions, ununified_positions_from i args h = Ok positions.
Proof.
  induction args as [|each rest IH]; intros i h Hlive; simpl; [eauto|].
  destruct (Hlive each) as [e He]; [apply list_elem_of_here|].
  unfold deref. rewrite He. simpl.
  destruct (IH (S i) h) as [ps ->]; [|simpl; eauto].
  intros a Ha. apply Hlive. by apply list_elem_of_further.
Qed.

(** X1: the positions [ununified_positions] returns are exactly the indices
    of the arguments whose status is false, in strictly increasing order,
    and every argument was a live object. *)
Theorem ununified_positions_exact (args : list loc) (h : heap)
    (positions : list nat) :
  ununified_positions args h = Ok positions →
  StronglySorted lt positions
  ∧ (∀ pos, pos ∈ positions ↔
       ∃ a, args !! pos = Some a ∧ status h a = Some false)
  ∧ (∀ a, a ∈ args → is_Some (h !! a)).
Proof.
  intros Hrun. split; [|split].
  - by apply ununified_positions_from_sorted in Hrun as [? _].
  - apply ununified_positions_from_spec in Hrun as [_ Hiff].
    intros pos. rewrite Hiff. split.
    + intros (k & a & -> & Hk & Ha). eauto.
    + intros (a & Hk & Ha). exists pos, a. by split.
  - by apply ununified_positions_from_spec in Hrun as [? _].
Qed.

(** X2: when every argument is a live object, recording the positions and
    restoring them at once succeeds and gives the store back as it was. *)
Theorem record_restore_roundtrip (args : list loc) (h : heap) :
  (∀ a, a ∈ args → is_Some (h !! a)) →
  ∃ positions, ununified_positions args h = Ok positions
               ∧ restore_ununified positions args h = Ok h.
Proof.
  intros Hlive.
  destruct (ununified_positions_from_total args 0 h Hlive) as [ps Hps].
  exists ps. split; [exact Hps|].
  pose proof (rollback_set _ _ _ Hps) as Hset.
  destruct (restore_ununified_total ps args h) as [h' Hrun].
  { intros pos Hpos.
    apply ununified_positions_from_spec in Hps as [_ Hiff].
    apply Hiff in Hpos as (k & a & -> & Hk & _). exists a.
    split; [exact Hk|]. apply Hlive, list_elem_of_lookup. eauto. }
  rewrite Hrun. f_equal. apply map_eq. intros p.
  rewrite (restore_ununified_lookup _ _ _ _ Hrun p).
  destruct (decide _) as [Hin|]; [|reflexivity].
  apply Hset in Hin as [_ Hst]. unfold status in Hst.
  destruct (h !! p) as [[T v u| |]|]; simpl in *; try discriminate Hst.
  by injection Hst as ->.
Qed.

(** ** What a call may and may not write *)

(** X3: whatever a call answers, it writes to no object outside its argument
    list, leaves every object that reports itself unified exactly as it
    was, and neither creates nor frees an object. *)
Theorem call_preserves (fuel : nat) (this : loc) (args : list loc)
    (h h' : heap) (b : bool) :
  call fuel this args h = Ok (b, h') →
  (∀ p, p ∉ args → h' !! p = h !! p)
  ∧ (∀ p e, h !! p = Some e → is_unified e = true → h' !! p = Some e)
  ∧ dom h' = dom h.
Proof.
  intros (Hev & Hfr & _)%call_spec. split; [exact Hfr|]. split.
  - intros p e. by apply heap_evolves_unified.
  - apply set_eq. intros p. rewrite !elem_of_dom. specialize (Hev p).
    destruct (h !! p) as [e|].
    + destruct Hev as (e' & -> & _). split; eauto.
    + rewrite Hev. reflexivity.
Qed.

(** X4: an atom called on one atom of its type that is not unified answers
    true and leaves the argument unified with the atom's value; the same
    call once more changes nothing and answers what [operator==] says of
    that value against itself: true for a value that equals itself, false
    for one that does not (a NaN). *)
Theorem Atom_call_binds_then_repeats (fuel : nat) (T : ty)
    (part_value arg_value : val) (part_unified : bool) (part arg : loc)
    (h : heap) :
  h !! part = Some (Atom T part_value part_unified) →
  h !! arg = Some (Atom T arg_value false) →
  let h1 := <[arg := Atom T part_value true]> h in
  call (S fuel) part [arg] h = Ok (true, h1)
  ∧ call (S fuel) part [arg] h1 = Ok (value_eq part_value part_value, h1).
Proof.
  intros Hpart Harg h1. split.
  - rewrite (call_unfold _ _ _ _ _ Hpart). by eapply Atom_call_unbound.
  - assert (Harg1 : h1 !! arg = Some (Atom T part_value true))
      by apply lookup_insert_eq.
    assert (∃ u, h1 !! part = Some (Atom T part_value u)) as [u Hpart1].
    { destruct (decide (part = arg)) as [->|Hne]; [eauto|].
      exists part_unified. unfold h1. by rewrite lookup_insert_ne. }
    by rewrite (call_unfold _ _ _ _ _ Hpart1), (Atom_call_bound _ _ _ _ _ Harg1).
Qed.

(** ** Successful unification against a fact of atoms *)

Lemma Atom_call_true T m_value a h h1 :
  Atom_call T m_value [a] h = Ok (true, h1) →
  carries h1 a T m_value.
Proof.
  unfold Atom_call. simpl. intros Hrun.
  apply bind_Ok in Hrun as (arg & Harg%deref_Ok & Hrun).
  destruct arg as [T' x u| |]; simpl in Hrun; try discriminate Hrun.
  destruct (decide (T' = T)) as [->|Hne].
  - rewrite bool_decide_eq_true_2 in Hrun by reflexivity. simpl in Hrun.
    destruct u; simpl in Hrun.
    + injection Hrun as Hv <-. exists x. auto.
    + injection Hrun as <-. exists m_value. split; [|by left].
      apply lookup_insert_eq.
  - rewrite bool_decide_eq_false_2 in Hrun by assumption. discriminate Hrun.
Qed.

Lemma Fact_loop_success fuel m_parts args positions n : ∀ i h h',
  Fact_loop (call fuel) m_parts args positions n i h = Ok (true, h') →
  ∀ k part a T v,
    i ≤ k < i + n → m_parts !! k = Some part → args !! k = Some a →
    h !! part = Some (Atom T v true) → carries h' a T v.
Proof.
  induction n as [|n IH]; intros i h h' Hrun k part a T v Hk Hpart Ha Hv;
    [lia|].
  cbn [Fact_loop] in Hrun.
  apply bind_Ok in Hrun as (ai & Hai%at_index_Ok & Hrun).
  apply bind_Ok in Hrun as (pi & Hpi%at_index_Ok & Hrun).
  apply bind_Ok in Hrun as ([b1 h1] & Hcall & Hrun). simpl in Hrun.
  destruct b1; simpl in Hrun;
    [|apply bind_Ok in Hrun as (? & _ & [=])].
  pose proof (call_spec _ _ _ _ _ _ Hcall) as (Hev1 & _ & _).
  destruct (decide (k = i)) as [->|Hne].
  - rewrite Hai in Ha. rewrite Hpi in Hpart.
    injection Ha as ->. injection Hpart as ->.
    destruct fuel as [|fuel]; [discriminate Hcall|].
    rewrite (call_unfold _ _ _ _ _ Hv) in Hcall.
    apply Atom_call_true in Hcall as (x & Hx & Hxv).
    apply Fact_loop_spec in Hrun as (hm & Hev & _ & ->);
      [|intros; by eapply call_spec].
    exists x. split; [|exact Hxv]. by apply (heap_evolves_unified h1).
  - apply (IH _ _ _ Hrun k part a T v); [lia|assumption..|].
    by apply (heap_evolves_unified h).
Qed.

Lemma Fact_call_true_inv fuel m_parts args h h' :
  Fact_call (call fuel) m_parts args h = Ok (true, h') →
  length args = length m_parts
  ∧ heap_evolves h h'
  ∧ ∃ positions,
      Fact_loop (call fuel) m_parts args positions (length m_parts) 0 h
      = Ok (true, h').
Proof.
  intros Hrun.
  pose proof (Fact_call_spec (call fuel) (λ _ _ _ _ _, call_spec fuel _ _ _ _ _)
                _ _ _ _ _ Hrun) as (Hev & _ & _).
  unfold Fact_call in Hrun.
  destruct (length args =? length m_parts) eqn:Hlen; simpl in Hrun;
    [|discriminate Hrun].
  apply Nat.eqb_eq in Hlen.
  apply bind_Ok in Hrun as (positions & _ & Hrun). eauto.
Qed.

(** X5: when a [Fact] answers true, the argument list has the length of
    the fact, and every argument that stood against a unified atom of the
    fact is afterwards a unified atom of the same type that carries the
    part's value: it holds that value, or a value [==] to it that it held
    before; the part is unchanged. *)
Theorem Fact_call_success_answers (fuel : nat) (m_parts args : list loc)
    (h h' : heap) :
  Fact_call (call fuel) m_parts args h = Ok (true, h') →
  length args = length m_parts
  ∧ ∀ k part a T v,
      m_parts !! k = Some part → args !! k = Some a →
      h !! part = Some (Atom T v true) →
      carries h' a T v ∧ h' !! part = Some (Atom T v true).
Proof.
  intros (Hlen & Hev & positions & Hrun)%Fact_call_true_inv.
  split; [exact Hlen|].
  intros k part a T v Hpart Ha Hv. split.
  - apply (Fact_loop_success _ _ _ _ _ _ _ _ Hrun k part a T v);
      [|assumption..].
    apply lookup_lt_Some in Hpart. lia.
  - by apply (heap_evolves_unified h).
Qed.

Lemma bind_Ok_l {A B : Type} (a : A) (k : A → result B) : (Ok a ≫= k) = k a.
Proof. reflexivity. Qed.

Lemma Fact_loop_all_match fuel m_parts args positions n : ∀ i h,
  (∀ k, i ≤ k < i + n →
        ∃ part a T v x, m_parts !! k = Some part ∧ args !! k = Some a
                        ∧ h !! part = Some (Atom T v true)
                        ∧ h !! a = Some (Atom T x true)
                        ∧ value_eq x v = true) →
  Fact_loop (call (S fuel)) m_parts args positions n i h = Ok (true, h).
Proof.
  induction n as [|n IH]; intros i h Hall; [reflexivity|].
  cbn [Fact_loop].
  destruct (Hall i) as (part & a & T & v & x & Hpart & Ha & Hp & Hv & Hxv);
    [lia|].
  apply at_index_Ok in Ha as ->. apply at_index_Ok in Hpart as ->.
  rewrite !bind_Ok_l.
  rewrite (call_unfold _ _ _ _ _ Hp), (Atom_call_bound _ _ _ _ _ Hv).
  rewrite bind_Ok_l, Hxv. cbn [fst snd negb].
  apply IH. intros k Hk. apply Hall. lia.
Qed.

(** X6: a fact whose parts are unified atoms holding values that are [==]
    to themselves, having answered true on an argument list, answers true
    again on the same list and then changes nothing.  (For a part holding
    a value that is not [==] to itself the repeated call can answer
    false.) *)
Theorem Fact_call_success_repeats (fuel : nat) (m_parts args : list loc)
    (h h' : heap) :
  (∀ part, part ∈ m_parts →
     ∃ T v, h !! part = Some (Atom T v true) ∧ value_eq v v = true) →
  Fact_call (call (S fuel)) m_parts args h = Ok (true, h') →
  Fact_call (call (S fuel)) m_parts args h' = Ok (true, h').
Proof.
  intros Hground (Hlen & Hev & positions & Hrun)%Fact_call_true_inv.
  assert (Hall : ∀ k, k < length m_parts →
            ∃ part a T v x, m_parts !! k = Some part ∧ args !! k = Some a
                            ∧ h' !! part = Some (Atom T v true)
                            ∧ h' !! a = Some (Atom T x true)
                            ∧ value_eq x v = true).
  { intros k Hk.
    destruct (lookup_lt_is_Some_2 m_parts k Hk) as [part Hpart].
    destruct (lookup_lt_is_Some_2 args k) as [a Ha]; [lia|].
    destruct (Hground part) as (T & v & Hv & Hself).
    { apply list_elem_of_lookup. eauto. }
    destruct (Fact_loop_success _ _ _ _ _ _ _ _ Hrun k part a T v)
      as (x & Hx & Hxv); [lia|assumption..|].
    exists part, a, T, v, x. repeat split; [assumption..| |assumption|].
    - by apply (heap_evolves_unified h).
    - destruct Hxv as [->|?]; assumption. }
  unfold Fact_call. rewrite Hlen, Nat.eqb_refl. simpl.
  destruct (ununified_positions_from_total args 0 h') as [ps Hps].
  { intros a [k Hk]%list_elem_of_lookup.
    destruct (Hall k) as (part & a' & T & v & x & _ & Ha' & _ & Hx & _).
    - apply lookup_lt_Some in Hk. lia.
    - rewrite Hk in Ha'. injection Ha' as <-. eauto. }
  unfold ununified_positions. rewrite Hps. simpl.
  apply Fact_loop_all_match. intros k Hk. apply Hall. lia.
Qed.

(** ** Deciding a query against a fact of unified atoms *)

Lemma Atom_call_agrees T m_value u part a h :
  h !! part = Some (Atom T m_value u) → is_Some (h !! a) →
  ∃ h1, Atom_call T m_value [a] h = Ok (agrees h part a, h1)
        ∧ (h1 = h ∨ ∃ x, h !! a = Some (Atom T x false)
                         ∧ h1 = <[a := Atom T m_value true]> h).
Proof.
  intros Hpart [arg Harg]. unfold Atom_call, agrees. simpl.
  unfold deref. rewrite Hpart, Harg. simpl.
  destruct arg as [T' x u'| |]; simpl; [|eauto..].
  destruct (decide (T' = T)) as [->|Hne].
  - rewrite bool_decide_eq_true_2 by reflexivity. simpl.
    destruct u'; simpl; eauto 10.
  - rewrite bool_decide_eq_false_2 by assumption. simpl. eauto.
Qed.

Lemma agrees_ext h h' part a :
  h' !! part = h !! part → h' !! a = h !! a →
  agrees h' part a = agrees h part a.
Proof. unfold agrees. by intros -> ->. Qed.

Lemma Fact_loop_decides fuel m_parts args positions h :
  length args = length m_parts →
  NoDup args →
  (∀ pos, pos ∈ positions → pos < length args) →
  ∀ n i hi,
    i + n = length m_parts →
    (∀ part, part ∈ m_parts →
             hi !! part = h !! part
             ∧ ∃ T v, h !! part = Some (Atom T v true)) →
    (∀ a, a ∈ args → is_Some (hi !! a)) →
    (∀ k a, i ≤ k → args !! k = Some a → hi !! a = h !! a) →
    ∃ h',
      Fact_loop (call (S fuel)) m_parts args positions n i hi
      = Ok (forallb (λ pa, agrees h pa.1 pa.2)
              (zip (drop i m_parts) (drop i args)), h').
Proof.
  intros Hlen Hnodup Hrange.
  induction n as [|n IH]; intros i hi Hi Hparts Hlive Hsame.
  - rewrite !drop_ge by lia. simpl. eauto.
  - cbn [Fact_loop].
    destruct (lookup_lt_is_Some_2 m_parts i) as [part Hpart]; [lia|].
    destruct (lookup_lt_is_Some_2 args i) as [a Ha]; [lia|].
    rewrite (drop_S _ _ _ Hpart), (drop_S _ _ _ Ha).
    cbn [zip_with forallb fst snd].
    apply at_index_Ok in Ha as Hai. apply at_index_Ok in Hpart as Hpi.
    rewrite Hai, Hpi, !bind_Ok_l.
    assert (part ∈ m_parts) as Hin by (apply list_elem_of_lookup; eauto).
    assert (a ∈ args) as Hina by (apply list_elem_of_lookup; eauto).
    destruct (Hparts part Hin) as (Hpeq & T & v & Hv).
    assert (Hpi' : hi !! part = Some (Atom T v true)) by congruence.
    rewrite (call_unfold _ _ _ _ _ Hpi').
    destruct (Atom_call_agrees T v true part a hi Hpi' (Hlive a Hina))
      as (h1 & -> & Hh1). rewrite bind_Ok_l. cbn [fst snd].
    rewrite <- (agrees_ext h hi part a) by eauto.
    assert (Hlive1 : ∀ q, is_Some (hi !! q) → is_Some (h1 !! q)).
    { intros q Hq. destruct Hh1 as [->|(x & Hx & ->)]; [assumption|].
      destruct (decide (q = a)) as [->|Hne].
      - rewrite lookup_insert_eq. eauto.
      - by rewrite lookup_insert_ne. }
    destruct (agrees hi part a) eqn:Hagree; cbn [negb andb].
    + destruct (IH (S i) h1) as [h' ->]; [lia|..|eauto].
      * intros p Hp. destruct (Hparts p Hp) as (Hpe & T' & v' & Hv').
        split; [|eauto]. destruct Hh1 as [->|(x & Hx & ->)]; [assumption|].
        rewrite lookup_insert_ne; [assumption|]. congruence.
      * intros q Hq. apply Hlive1. auto.
      * intros k q Hk Hq. destruct Hh1 as [->|(x & Hx & ->)].
        -- apply (Hsame k); [lia|assumption].
        -- rewrite lookup_insert_ne; [apply (Hsame k); [lia|assumption]|].
           intros <-. pose proof (NoDup_lookup _ _ _ _ Hnodup Ha Hq). lia.
    + destruct (restore_ununified_total positions args h1) as [h' ->];
        [|simpl; eauto].
      intros pos Hpos. apply Hrange in Hpos.
      destruct (lookup_lt_is_Some_2 args pos Hpos) as [q Hq].
      exists q. split; [assumption|]. apply Hlive1, Hlive.
      apply list_elem_of_lookup. eauto.
Qed.

Lemma Fact_call_decides fuel m_parts args h :
  (∀ part, part ∈ m_parts → ∃ T v, h !! part = Some (Atom T v true)) →
  (∀ a, a ∈ args → is_Some (h !! a)) →
  NoDup args →
  length args = length m_parts →
  ∃ h', Fact_call (call (S fuel)) m_parts args h
        = Ok (forallb (λ pa, agrees h pa.1 pa.2) (zip m_parts args), h').
Proof.
  intros Hground Hlive Hnodup Hlen. unfold Fact_call.
  rewrite Hlen, Nat.eqb_refl. cbn [negb].
  destruct (ununified_positions_from_total args 0 h Hlive) as [ps Hps].
  unfold ununified_positions. rewrite Hps, bind_Ok_l.
  destruct (Fact_loop_decides fuel m_parts args ps h Hlen Hnodup)
    with (n := length m_parts) (i := 0) (hi := h) as [h' Hrun];
    [|lia|auto..|exists h'; exact Hrun].
  intros pos Hpos.
  apply ununified_positions_from_spec in Hps as [_ Hiff].
  apply Hiff in Hpos as (k & a & -> & Hk & _).
  apply lookup_lt_Some in Hk. lia.
Qed.

(** X7: a fact whose parts are unified atoms, called on as many distinct
    live arguments, always returns, and answers true exactly when every
    argument agrees with its part: it is an atom of the part's type that
    is either not unified or holds a value that [operator==] of the value
    type finds equal to the part's. *)
Theorem ground_fact_decides (fuel : nat) (this : loc) (m_parts args : list loc)
    (h : heap) :
  h !! this = Some (Fact m_parts) →
  (∀ part, part ∈ m_parts → ∃ T v, h !! part = Some (Atom T v true)) →
  (∀ a, a ∈ args → is_Some (h !! a)) →
  NoDup args →
  length args = length m_parts →
  ∃ h', call (S (S fuel)) this args h
        = Ok (forallb (λ pa, agrees h pa.1 pa.2) (zip m_parts args), h')
        ∧ (forallb (λ pa, agrees h pa.1 pa.2) (zip m_parts args) = true ↔
           ∀ k part a, m_parts !! k = Some part → args !! k = Some a →
                       agrees h part a = true).
Proof.
  intros Hthis Hground Hlive Hnodup Hlen.
  rewrite (call_unfold _ _ _ _ _ Hthis).
  destruct (Fact_call_decides fuel m_parts args h) as [h' Hrun];
    try assumption.
  exists h'. split; [exact Hrun|].
  rewrite forallb_forall. split.
  - intros Hall k part a Hpart Ha.
    apply (Hall (part, a)). apply list_elem_of_In, list_elem_of_lookup.
    exists k. apply lookup_zip_with_Some. eauto.
  - intros Hall [part a] [k Hk]%list_elem_of_In%list_elem_of_lookup.
    apply lookup_zip_with_Some in Hk as (x & y & [= -> ->] & Hx & Hy).
    simpl. eauto.
Qed.

Lemma Fact_loop_returns fuel m_parts args positions :
  length args = length m_parts →
  (∀ pos, pos ∈ positions → pos < length args) →
  ∀ n i hi,
    i + n ≤ length m_parts →
    (∀ part, part ∈ m_parts → is_Atom <$> hi !! part = Some true) →
    (∀ a, a ∈ args → is_Some (hi !! a)) →
    ∃ b h', Fact_loop (call (S fuel)) m_parts args positions n i hi
            = Ok (b, h').
Proof.
  intros Hlen Hrange.
  induction n as [|n IH]; intros i hi Hi Hparts Hlive; [simpl; eauto|].
  cbn [Fact_loop].
  destruct (lookup_lt_is_Some_2 m_parts i) as [part Hpart]; [lia|].
  destruct (lookup_lt_is_Some_2 args i) as [a Ha]; [lia|].
  apply at_index_Ok in Ha as Hai. apply at_index_Ok in Hpart as Hpi.
  rewrite Hai, Hpi, !bind_Ok_l.
  assert (part ∈ m_parts) as Hin by (apply list_elem_of_lookup; eauto).
  assert (a ∈ args) as Hina by (apply list_elem_of_lookup; eauto).
  pose proof (Hparts part Hin) as Hatom.
  destruct (hi !! part) as [[T v u| |]|] eqn:Hp; try discriminate Hatom.
  rewrite (call_unfold _ _ _ _ _ Hp).
  destruct (Atom_call_agrees T v u part a hi Hp (Hlive a Hina))
    as (h1 & -> & Hh1). rewrite bind_Ok_l. cbn [fst snd].
  assert (Hshape : ∀ q, is_Atom <$> h1 !! q = is_Atom <$> hi !! q).
  { intros q. destruct Hh1 as [->|(x & Hx & ->)]; [reflexivity|].
    destruct (decide (q = a)) as [->|Hne].
    - by rewrite lookup_insert_eq, Hx.
    - by rewrite lookup_insert_ne. }
  assert (Hlive1 : ∀ q, is_Some (hi !! q) → is_Some (h1 !! q)).
  { intros q Hq. specialize (Hshape q).
    destruct (hi !! q), (h1 !! q); simpl in Hshape; by eauto. }
  destruct (agrees hi part a); cbn [negb].
  - apply IH; [lia|..].
    + intros p Hp'. rewrite Hshape. auto.
    + intros q Hq. auto.
  - destruct (restore_ununified_total positions args h1) as [h' ->];
      [|rewrite bind_Ok_l; eauto].
    intros pos Hpos. apply Hrange in Hpos.
    destruct (lookup_lt_is_Some_2 args pos Hpos) as [q Hq].
    exists q. split; [assumption|]. apply Hlive1, Hlive.
    apply list_elem_of_lookup. eauto.
Qed.

(** X8: a fact whose parts are atoms, called on live arguments, always
    returns an answer: no read through an invalid pointer or past the end
    of a vector, and two levels of calls suffice, whatever the length of
    the argument list and however the arguments alias. *)
Theorem Fact_call_returns (fuel : nat) (this : loc) (m_parts args : list loc)
    (h : heap) :
  h !! this = Some (Fact m_parts) →
  (∀ part, part ∈ m_parts → is_Atom <$> h !! part = Some true) →
  (∀ a, a ∈ args → is_Some (h !! a)) →
  ∃ b h', call (S (S fuel)) this args h = Ok (b, h').
Proof.
  intros Hthis Hparts Hlive.
  rewrite (call_unfold _ _ _ _ _ Hthis). unfold Fact_call.
  destruct (length args =? length m_parts) eqn:Hlen; cbn [negb]; [|eauto].
  apply Nat.eqb_eq in Hlen.
  destruct (ununified_positions_from_total args 0 h Hlive) as [ps Hps].
  unfold ununified_positions. rewrite Hps, bind_Ok_l.
  apply Fact_loop_returns; [assumption| |lia|assumption..].
  intros pos Hpos.
  apply ununified_positions_from_spec in Hps as [_ Hiff].
  apply Hiff in Hpos as (k & a & -> & Hk & _).
  apply lookup_lt_Some in Hk. lia.
Qed.

(** ** [operator==] *)

Lemma equals_unfold fuel this o h e :
  h !! this = Some e →
  equals (S fuel) this o h =
    match e with
    | Atom T m_value m_is_unified => Atom_eq T m_value m_is_unified o h
    | Fact m_parts => Fact_eq (equals fuel) m_parts o h
    | Rule m_args m_predicates => Rule_eq m_args m_predicates o h
    end.
Proof. intros Hthis. simpl. unfold deref. rewrite Hthis. reflexivity. Qed.

Lemma Fact_eq_loop_swap (eq1 eq2 : loc → loc → heap → result bool)
    (pa pb : list loc) h :
  (∀ x y, eq1 x y h = eq2 y x h) →
  ∀ n i, Fact_eq_loop eq1 pa pb n i h = Fact_eq_loop eq2 pb pa n i h.
Proof.
  intros Hswap. induction n as [|n IH]; intros i; [reflexivity|].
  cbn [Fact_eq_loop]. unfold at_index, not_equals.
  destruct (pa !! i) as [x|], (pb !! i) as [y|]; simpl; try reflexivity.
  rewrite Hswap. destruct (eq2 y x h) as [[|]| |]; simpl; auto.
Qed.

(** X9: when [operator==] of the value type is symmetric, [operator==] of
    expressions is symmetric: asked of [a] about [b] or of [b] about [a],
    it gives the same result, whatever the classes of the two objects, and
    it fails in the one case exactly when it fails in the other. *)
Theorem equals_symmetric (fuel : nat) (a b : loc) (h : heap) :
  (∀ x y : val, value_eq x y = value_eq y x) →
  equals fuel a b h = equals fuel b a h.
Proof.
  intros Hsym. revert a b.
  induction fuel as [|fuel IH]; intros a b; [reflexivity|].
  cbn [equals]. unfold deref, Atom_eq, Fact_eq, Rule_eq, deref.
  destruct (h !! a) as [ea|] eqn:Ha, (h !! b) as [eb|] eqn:Hb; simpl;
    try rewrite Ha; try rewrite Hb; simpl.
  - destruct ea as [Ta va ua|pa|aa qa], eb as [Tb vb ub|pb|ab qb]; simpl;
      try reflexivity.
    + f_equal.
      rewrite (bool_decide_ext (Tb = Ta) (Ta = Tb)) by (split; congruence).
      rewrite (Hsym vb va).
      rewrite (bool_decide_ext (ub = ua) (ua = ub)) by (split; congruence).
      reflexivity.
    + rewrite (Nat.eqb_sym (length pb)).
      destruct (length pa =? length pb) eqn:Hlen; simpl; [|reflexivity].
      apply Nat.eqb_eq in Hlen. rewrite <- Hlen.
      apply Fact_eq_loop_swap. intros x y. apply IH.
    + f_equal.
      rewrite (bool_decide_ext (ab = aa) (aa = ab)) by (split; congruence).
      rewrite (bool_decide_ext (qb = qa) (qa = qb)) by (split; congruence).
      reflexivity.
  - destruct ea; reflexivity.
  - destruct eb; reflexivity.
  - reflexivity.
Qed.

Lemma Fact_eq_loop_refl (eq : loc → loc → heap → result bool)
    (parts : list loc) h :
  (∀ x r, eq x x h = Ok r → r = true) →
  ∀ n i r, Fact_eq_loop eq parts parts n i h = Ok r → r = true.
Proof.
  intros Hrefl. induction n as [|n IH]; intros i r Hrun;
    cbn [Fact_eq_loop] in Hrun.
  - by injection Hrun as <-.
  - apply bind_Ok in Hrun as (x & Hx & Hrun).
    apply bind_Ok in Hrun as (y & Hy & Hrun).
    rewrite Hx in Hy. injection Hy as <-.
    apply bind_Ok in Hrun as (differ & Hd & Hrun). unfold not_equals in Hd.
    apply bind_Ok in Hd as (b & Hb & Hd). injection Hd as <-.
    apply Hrefl in Hb as ->. simpl in Hrun. by eapply IH.
Qed.

(** An atom compared with itself: the answer is that of [operator==] of
    the value type on the stored value and itself. *)
Lemma Atom_equals_itself fuel a T v u h :
  h !! a = Some (Atom T v u) → equals (S fuel) a a h = Ok (value_eq v v).
Proof.
  intros Ha. rewrite (equals_unfold _ _ _ _ _ Ha). unfold Atom_eq, deref.
  rewrite Ha, bind_Ok_l. simpl.
  rewrite !bool_decide_eq_true_2 by reflexivity. simpl.
  by rewrite orb_false_r.
Qed.

(** X10: in a store where every atom holds a value that is [==] to itself,
    [operator==] is reflexive: whenever comparing an object with itself
    returns, the answer is true.  (An atom whose value is not [==] to
    itself is not [==] to itself.) *)
Theorem equals_reflexive (fuel : nat) (a : loc) (h : heap) (r : bool) :
  (∀ p T v u, h !! p = Some (Atom T v u) → value_eq v v = true) →
  equals fuel a a h = Ok r → r = true.
Proof.
  intros Hself. revert a r.
  induction fuel as [|fuel IH]; intros a r Hrun; [discriminate Hrun|].
  pose proof Hrun as Hrun'.
  cbn [equals] in Hrun. apply bind_Ok in Hrun as (e & He%deref_Ok & Hrun).
  destruct e as [T v u|parts|margs preds].
  - rewrite (Atom_equals_itself _ _ _ _ _ _ He) in Hrun'.
    injection Hrun' as <-. by eapply Hself.
  - unfold Fact_eq, deref in Hrun. rewrite He in Hrun. simpl in Hrun.
    rewrite Nat.eqb_refl in Hrun. simpl in Hrun.
    apply Fact_eq_loop_refl in Hrun; [assumption|]. intros x r'. apply IH.
  - unfold Rule_eq, deref in Hrun. rewrite He in Hrun. simpl in Hrun.
    rewrite !bool_decide_eq_true_2 in Hrun by reflexivity.
    by injection Hrun as <-.
Qed.

(** A fact compared with a fact: the loop stops at the first pair of parts
    that differ. *)
Lemma Fact_eq_loop_decides fuel m_parts other_parts h :
  length other_parts = length m_parts →
  (∀ part, part ∈ m_parts → ∃ T v, h !! part = Some (Atom T v true)) →
  (∀ a, a ∈ other_parts → is_Some (h !! a)) →
  ∀ n i,
    i + n = length m_parts →
    Fact_eq_loop (equals (S fuel)) m_parts other_parts n i h
    = Ok (forallb (λ pa, agrees h pa.1 pa.2)
            (zip (drop i m_parts) (drop i other_parts))).
Proof.
  intros Hlen Hground Hlive.
  induction n as [|n IH]; intros i Hi.
  - rewrite !drop_ge by lia. reflexivity.
  - cbn [Fact_eq_loop].
    destruct (lookup_lt_is_Some_2 m_parts i) as [part Hpart]; [lia|].
    destruct (lookup_lt_is_Some_2 other_parts i) as [a Ha]; [lia|].
    rewrite (drop_S _ _ _ Hpart), (drop_S _ _ _ Ha).
    cbn [zip_with forallb fst snd].
    apply at_index_Ok in Ha as Hai. apply at_index_Ok in Hpart as Hpi.
    rewrite Hai, Hpi, !bind_Ok_l.
    destruct (Hground part) as (T & v & Hv); [apply list_elem_of_lookup; eauto|].
    destruct (Hlive a) as [arg Harg]; [apply list_elem_of_lookup; eauto|].
    unfold not_equals. rewrite (equals_unfold _ _ _ _ _ Hv).
    unfold Atom_eq, deref. rewrite Harg, !bind_Ok_l.
    assert (Hsame : is_Atom_of T arg
                    && match arg with
                       | Atom _ x u =>
                           value_eq x v || negb (bool_decide (u = true))
                       | _ => false
                       end = agrees h part a).
    { unfold agrees. rewrite Hv, Harg.
      destruct arg as [T' x u| |]; simpl; try reflexivity.
      destruct (bool_decide (T' = T)), (value_eq x v), u; reflexivity. }
    rewrite Hsame. destruct (agrees h part a); simpl; [|reflexivity].
    apply IH. lia.
Qed.

(** X11: for an atom that is unified, [operator==] about a live object
    and [operator()] on that one object give the same answer: both say
    whether the object is an atom of the same type that is not unified or
    holds a value that [operator==] of the value type finds equal to the
    atom's. *)
Theorem Atom_eq_predicts_call (fuel fuel' : nat) (T : ty) (v : val)
    (part a : loc) (h : heap) :
  h !! part = Some (Atom T v true) →
  is_Some (h !! a) →
  equals (S fuel) part a h = Ok (agrees h part a)
  ∧ ∃ h', call (S fuel') part [a] h = Ok (agrees h part a, h').
Proof.
  intros Hpart Hlive. split.
  - destruct Hlive as [arg Harg].
    rewrite (equals_unfold _ _ _ _ _ Hpart). unfold Atom_eq, deref, agrees.
    rewrite Hpart, Harg, bind_Ok_l. f_equal.
    destruct arg as [T' x u| |]; simpl; try reflexivity.
    destruct (bool_decide (T' = T)), (value_eq x v), u; reflexivity.
  - rewrite (call_unfold _ _ _ _ _ Hpart).
    destruct (Atom_call_agrees T v true part a h Hpart Hlive) as (h1 & -> & _).
    eauto.
Qed.

(** X12: a fact whose parts are unified atoms, compared with a fact whose
    parts are distinct live objects, is [==] to it exactly when it answers
    true on the parts of that fact as its argument list. *)
Theorem Fact_eq_predicts_call (fuel fuel' : nat) (this o : loc)
    (m_parts other_parts : list loc) (h : heap) :
  h !! this = Some (Fact m_parts) →
  h !! o = Some (Fact other_parts) →
  (∀ part, part ∈ m_parts → ∃ T v, h !! part = Some (Atom T v true)) →
  (∀ a, a ∈ other_parts → is_Some (h !! a)) →
  NoDup other_parts →
  ∃ b h', equals (S (S fuel)) this o h = Ok b
          ∧ call (S (S fuel')) this other_parts h = Ok (b, h').
Proof.
  intros Hthis Ho Hground Hlive Hnodup.
  rewrite (equals_unfold _ _ _ _ _ Hthis). unfold Fact_eq, deref.
  rewrite Ho, bind_Ok_l.
  destruct (length other_parts =? length m_parts) eqn:Hlen; cbn [negb].
  - apply Nat.eqb_eq in Hlen.
    destruct (Fact_call_decides fuel' m_parts other_parts h)
      as [h' Hcall]; try assumption.
    exists (forallb (λ pa, agrees h pa.1 pa.2) (zip m_parts other_parts)), h'.
    split; [|by rewrite (call_unfold _ _ _ _ _ Hthis)].
    by apply (Fact_eq_loop_decides fuel m_parts other_parts h Hlen Hground
                Hlive (length m_parts) 0).
  - apply Nat.eqb_neq in Hlen. exists false, h. split; [reflexivity|].
    rewrite (call_unfold _ _ _ _ _ Hthis). unfold Fact_call.
    apply Nat.eqb_neq in Hlen. by rewrite Hlen.
Qed.

(** ** The body of a rule *)

(** X13: writing [rule << p1, p2] on a rule appends [p1] and then [p2] to
    its body in that order and changes nothing else: the arguments, every
    [rule[i]], every other object; and the rule still answers false. *)
Theorem Rule_append_twice (this p1 p2 : loc) (m_args m_predicates : list loc)
    (h : heap) :
  h !! this = Some (Rule m_args m_predicates) →
  ∃ h2, (Rule_append this p1 h ≫= Rule_append this p2) = Ok h2
        ∧ h2 !! this = Some (Rule m_args (m_predicates ++ [p1; p2]))
        ∧ (∀ q, q ≠ this → h2 !! q = h !! q)
        ∧ (∀ i, Rule_subscript this i h2 = Rule_subscript this i h)
        ∧ (∀ fuel args, call (S fuel) this args h2 = Ok (false, h2)).
Proof.
  intros Hthis.
  set (h1 := <[this := Rule m_args (m_predicates ++ [p1])]> h).
  set (h2 := <[this := Rule m_args ((m_predicates ++ [p1]) ++ [p2])]> h1).
  assert (Hh2 : h2 !! this = Some (Rule m_args (m_predicates ++ [p1; p2]))).
  { unfold h2. rewrite lookup_insert_eq, <- app_assoc. reflexivity. }
  exists h2. split; [|split; [exact Hh2|split; [|split]]].
  - assert (H1 : Rule_append this p1 h = Ok h1).
    { unfold Rule_append, deref. by rewrite Hthis. }
    assert (H2 : Rule_append this p2 h1 = Ok h2).
    { unfold Rule_append, deref, h1. by rewrite lookup_insert_eq. }
    rewrite H1, bind_Ok_l. exact H2.
  - intros q Hq. unfold h2, h1. by rewrite !lookup_insert_ne.
  - intros i. unfold Rule_subscript, deref. by rewrite Hh2, Hthis.
  - intros fuel args. rewrite (call_unfold _ _ _ _ _ Hh2).
    apply Rule_call_false.
Qed.

(** ** What [add_fact] and [add_rule] build *)

Lemma new_subseteq e h p h' :
  new e h = (p, h') → h ⊆ h' ∧ h !! p = None ∧ h' !! p = Some e.
Proof.
  intros [Hfree ->]%new_spec. split; [by apply insert_subseteq|].
  split; [assumption|apply lookup_insert_eq].
Qed.

Lemma add_atoms_spec atoms : ∀ so_far h pool so_far' h' pool',
  add_atoms atoms so_far h pool = (so_far', h', pool') →
  ∃ parts, so_far' = so_far ++ parts ∧ pool' = pool ++ parts
           ∧ length parts = length atoms ∧ h ⊆ h'
           ∧ ∀ i atom, atoms !! i = Some atom →
               ∃ p, parts !! i = Some p ∧ h' !! p = Some (atom_of_arg atom)
                    ∧ h !! p = None.
Proof.
  induction atoms as [|atom rest IH];
    intros so_far h pool so_far' h' pool' Hrun; cbn [add_atoms] in Hrun.
  - injection Hrun as <- <- <-. exists []. rewrite !app_nil_r.
    repeat split; [done|]. intros i atom Hi. by rewrite lookup_nil in Hi.
  - unfold add_atom in Hrun. fold (atom_of_arg atom) in Hrun.
    destruct (new (atom_of_arg atom) h) as [p h1] eqn:Hnew.
    apply new_subseteq in Hnew as (Hsub & Hfree & Hp).
    apply IH in Hrun as (parts & -> & -> & Hlen & Hsub' & Hparts).
    exists (p :: parts). rewrite <- !app_assoc. simpl.
    repeat split; [by rewrite Hlen|by etrans|].
    intros [|i] atom' Hi; simpl in Hi.
    + injection Hi as <-. exists p. repeat split; [|assumption].
      by apply (lookup_weaken h1).
    + destruct (Hparts i atom' Hi) as (q & Hq & Hq' & Hfree').
      exists q. repeat split; [assumption..|].
      destruct (h !! q) eqn:Hhq; [|reflexivity].
      apply (lookup_weaken _ h1) in Hhq; [congruence|assumption].
Qed.

Lemma add_args_spec args : ∀ so_far h pool so_far' h' pool',
  add_args args so_far h pool = (so_far', h', pool') →
  ∃ news, so_far' = so_far ++ news ∧ length news = length args ∧ h ⊆ h'
          ∧ pool ⊆ pool'
          ∧ ∀ i arg, args !! i = Some arg →
              ∃ p, news !! i = Some p
                   ∧ match arg with
                     | Pointer expr => p = expr
                     | Placeholder T init =>
                         h' !! p = Some (Atom T init false) ∧ h !! p = None
                         ∧ p ∈ pool'
                     end.
Proof.
  induction args as [|arg rest IH];
    intros so_far h pool so_far' h' pool' Hrun; cbn [add_args] in Hrun.
  - injection Hrun as <- <- <-. exists []. rewrite !app_nil_r.
    repeat split; [done..|]. intros i arg Hi. by rewrite lookup_nil in Hi.
  - destruct arg as [expr|T init]; cbn [add_arg] in Hrun.
    + apply IH in Hrun as (news & -> & Hlen & Hsub & Hpool & Hnews).
      exists (expr :: news). rewrite <- !app_assoc. simpl.
      repeat split; [by rewrite Hlen|assumption..|].
      intros [|i] arg' Hi; simpl in Hi.
      * injection Hi as <-. eauto.
      * destruct (Hnews i arg' Hi) as (q & Hq & Hq'). exists q.
        split; [assumption|]. exact Hq'.
    + destruct (new (Atom T init false) h) as [p h1] eqn:Hnew.
      apply new_subseteq in Hnew as (Hsub & Hfree & Hp).
      apply IH in Hrun as (news & -> & Hlen & Hsub' & Hpool & Hnews).
      exists (p :: news). rewrite <- !app_assoc. simpl.
      repeat split; [by rewrite Hlen|by etrans| |].
      { intros x Hx. apply Hpool, elem_of_app. by left. }
      intros [|i] arg' Hi; simpl in Hi.
      * injection Hi as <-. exists p. repeat split; [|assumption|].
        -- by apply (lookup_weaken h1).
        -- apply Hpool, elem_of_app. right. apply list_elem_of_here.
      * destruct (Hnews i arg' Hi) as (q & Hq & Hq'). exists q.
        split; [assumption|]. destruct arg' as [expr|T' init']; [assumption|].
        destruct Hq' as (Hq1 & Hq2 & Hq3). repeat split; [assumption| |assumption].
        destruct (h !! q) eqn:Hhq; [|reflexivity].
        apply (lookup_weaken _ h1) in Hhq; [congruence|assumption].
Qed.

(** X14: [add_fact(key, a1, ..., an)] makes one new atom per argument, in
    order: unified and holding the value for a value, not unified for a
    [Variable]; the new fact has exactly these atoms as its parts; exactly
    these atoms are added to [m_atoms]; no object that existed is changed
    and the entries under other names are as before. *)
Theorem add_fact_builds (key : name) (atoms : list (fact_arg ty val))
    (h : heap) (db : Database name) :
  let '(fact, h', db') := add_fact key atoms h db in
  h ⊆ h' ∧ h !! fact = None
  ∧ ∃ parts,
      h' !! fact = Some (Fact parts) ∧ length parts = length atoms
      ∧ m_atoms db' = m_atoms db ++ parts
      ∧ (∀ i atom, atoms !! i = Some atom →
           ∃ p, parts !! i = Some p ∧ h' !! p = Some (atom_of_arg atom)
                ∧ h !! p = None)
      ∧ (∀ key', key' ≠ key →
           m_expressions db' !! key' = m_expressions db !! key').
Proof.
  unfold add_fact.
  destruct (add_atoms atoms [] h (m_atoms db)) as [[so_far h1] pool] eqn:Hatoms.
  destruct (new (Fact so_far) h1) as [fact h2] eqn:Hnew.
  apply add_atoms_spec in Hatoms as (parts & -> & -> & Hlen & Hsub & Hparts).
  apply new_subseteq in Hnew as (Hsub' & Hfree & Hfact). simpl in *.
  split; [by etrans|]. split.
  { destruct (h !! fact) eqn:Hh; [|reflexivity].
    apply (lookup_weaken _ h1) in Hh; [congruence|assumption]. }
  exists parts. repeat split; [assumption..| |].
  - intros i atom Hi. destruct (Hparts i atom Hi) as (p & Hp & Hp' & Hp'').
    exists p. repeat split; [assumption| |assumption].
    by apply (lookup_weaken h1).
  - intros key' Hne. rewrite push_back_at_lookup. by rewrite decide_False.
Qed.

(** X15: after [add_rule(key, args)] the new rule has as many arguments as
    were given, and [rule[i]] is the pointer itself for a pointer of the
    caller, and for a [Variable] a new atom of that type that is not
    unified and is in [m_atoms]; [rule[i]] past the last argument reads
    past the end of the vector; no object that existed is changed. *)
Theorem add_rule_subscript (key : name) (args : list (rule_arg ty val))
    (h : heap) (db : Database name) :
  let '(rule, h', db') := add_rule key args h db in
  h ⊆ h'
  ∧ (arity <$> h' !! rule) = Some (length args)
  ∧ (∀ i arg, args !! i = Some arg →
       ∃ p, Rule_subscript rule i h' = Ok p
            ∧ match arg with
              | Pointer expr => p = expr
              | Placeholder T init =>
                  h' !! p = Some (Atom T init false) ∧ h !! p = None
                  ∧ p ∈ m_atoms db'
              end)
  ∧ (∀ i, length args ≤ i → Rule_subscript rule i h' = Fault).
Proof.
  unfold add_rule.
  destruct (add_args args [] h (m_atoms db)) as [[so_far h1] pool] eqn:Hargs.
  destruct (new (Rule so_far []) h1) as [rule h2] eqn:Hnew.
  apply add_args_spec in Hargs as (news & -> & Hlen & Hsub & Hpool & Hnews).
  apply new_subseteq in Hnew as (Hsub' & Hfree & Hrule). simpl in *.
  split; [by etrans|]. split; [by rewrite Hrule; simpl; rewrite Hlen|].
  split.
  - intros i arg Hi. destruct (Hnews i arg Hi) as (p & Hp & Hmatch).
    exists p. split.
    + unfold Rule_subscript, deref. rewrite Hrule, bind_Ok_l.
      by apply at_index_Ok.
    + destruct arg as [expr|T init]; [assumption|].
      destruct Hmatch as (H1 & H2 & H3). repeat split; [|assumption..].
      by apply (lookup_weaken h1).
  - intros i Hi. unfold Rule_subscript, deref. rewrite Hrule, bind_Ok_l.
    unfold at_index. rewrite lookup_ge_None_2; [reflexivity|lia].
Qed.

(** ** Looking up what was added *)

Lemma get_registered (key : name) n h db exprs :
  m_expressions db !! key = Some exprs →
  get key n h db = (find_if_arity n exprs h ≫= λ r, Ok (r, h, db)).
Proof.
  intros Hkey. unfold get, map_index. rewrite Hkey. by destruct db.
Qed.

Lemma find_if_arity_weaken n exprs h h' :
  h ⊆ h' → (∀ p, p ∈ exprs → is_Some (h !! p)) →
  find_if_arity n exprs h' = find_if_arity n exprs h.
Proof.
  intros Hsub. induction exprs as [|expr rest IH]; intros Hlive; [reflexivity|].
  simpl. destruct (Hlive expr) as [e He]; [apply list_elem_of_here|].
  unfold deref. rewrite He, (lookup_weaken _ _ _ _ He Hsub). simpl.
  destruct (arity e =? n); [reflexivity|].
  apply IH. intros p Hp. apply Hlive. by apply list_elem_of_further.
Qed.

(** Registering at [q] a new object of arity [n] under [key]: a lookup of
    that arity under [key] then finds an entry, and finds [q] when no
    earlier entry under [key] has that arity. *)
Lemma get_after_register (key : name) n q e h h1 h2 db pool :
  (∀ exprs p, m_expressions db !! key = Some exprs → p ∈ exprs →
              is_Some (h !! p)) →
  h ⊆ h1 → new e h1 = (q, h2) → arity e = n →
  let db' := {| m_expressions := push_back_at key q (m_expressions db);
                m_atoms := pool |} in
  ∃ r, get key n h2 db' = Ok (Some r, h2, db')
       ∧ ((∀ exprs p e', m_expressions db !! key = Some exprs → p ∈ exprs →
                         h !! p = Some e' → arity e' ≠ n) → r = q).
Proof.
  intros Hlive Hsub (Hsub' & Hfree & Hq)%new_subseteq Har db'.
  set (old := default [] (m_expressions db !! key)).
  assert (Hkey : m_expressions db' !! key = Some (old ++ [q])).
  { cbn [db' m_expressions]. rewrite push_back_at_lookup.
    by rewrite decide_True. }
  assert (Hold : ∀ p, p ∈ old → is_Some (h !! p)).
  { intros p Hp. unfold old in Hp.
    destruct (m_expressions db !! key) as [exprs|] eqn:Hm; [eauto|].
    by apply elem_of_nil in Hp. }
  assert (Hsub2 : h ⊆ h2) by (by etrans).
  destruct (find_if_arity_spec n (old ++ [q]) h2) as (r & Hr & Hfirst).
  { intros p [Hp|Hp%list_elem_of_singleton]%elem_of_app.
    - destruct (Hold p Hp) as [e' He']. exists e'.
      by apply (lookup_weaken h).
    - subst p. eauto. }
  rewrite (get_registered _ _ _ _ _ Hkey), Hr, bind_Ok_l.
  destruct r as [r|]; simpl in Hfirst.
  - exists r. split; [reflexivity|]. intros Hnone.
    destruct Hfirst as (i & e' & Hi & Hr' & Hn & _).
    destruct (decide (i < length old)) as [Hlt|Hge].
    + rewrite lookup_app_l in Hi by assumption.
      assert (r ∈ old) as Hin by (apply list_elem_of_lookup; eauto).
      destruct (Hold r Hin) as [e0 He0].
      pose proof (lookup_weaken _ _ _ _ He0 Hsub2) as He0'.
      rewrite Hr' in He0'. injection He0' as ->.
      exfalso. unfold old in Hin.
      destruct (m_expressions db !! key) as [exprs|] eqn:Hm.
      * by apply (Hnone exprs r e0).
      * by apply elem_of_nil in Hin.
    + rewrite lookup_app_r in Hi by lia.
      apply list_lookup_singleton_Some in Hi as [_ <-]. reflexivity.
  - exfalso. apply (Hfirst q e); [|assumption..].
    apply elem_of_app. right. apply list_elem_of_here.
Qed.

Lemma add_fact_state (key : name) (atoms : list (fact_arg ty val)) h db :
  let '(_, h', db') := add_fact key atoms h db in
  h ⊆ h'
  ∧ ∀ key', key' ≠ key →
            m_expressions db' !! key' = m_expressions db !! key'.
Proof.
  unfold add_fact.
  destruct (add_atoms atoms [] h (m_atoms db)) as [[so_far h1] pool] eqn:Hatoms.
  destruct (new (Fact so_far) h1) as [fact h2] eqn:Hnew.
  apply add_atoms_spec in Hatoms as (parts & -> & -> & _ & Hsub & _).
  apply new_subseteq in Hnew as (Hsub' & _). split; [by etrans|].
  intros key' Hne. cbn [m_expressions]. rewrite push_back_at_lookup.
  by rewrite decide_False.
Qed.

Lemma add_rule_state (key : name) (args : list (rule_arg ty val)) h db :
  let '(_, h', db') := add_rule key args h db in
  h ⊆ h'
  ∧ ∀ key', key' ≠ key →
            m_expressions db' !! key' = m_expressions db !! key'.
Proof.
  unfold add_rule.
  destruct (add_args args [] h (m_atoms db)) as [[so_far h1] pool] eqn:Hargs.
  destruct (new (Rule so_far []) h1) as [rule h2] eqn:Hnew.
  apply add_args_spec in Hargs as (news & -> & _ & Hsub & _).
  apply new_subseteq in Hnew as (Hsub' & _). split; [by etrans|].
  intros key' Hne. cbn [m_expressions]. rewrite push_back_at_lookup.
  by rewrite decide_False.
Qed.

(** X16: after [add_fact(key, a1, ..., an)], [get(key, n)] is not
    [nullptr]; it is the new fact when no earlier entry under [key] has
    arity [n].  The entries under [key] are assumed live, as they are in
    every database built by [add_fact] and [add_rule]. *)
Theorem add_fact_then_get (key : name) (atoms : list (fact_arg ty val))
    (h : heap) (db : Database name) :
  (∀ exprs p, m_expressions db !! key = Some exprs → p ∈ exprs →
              is_Some (h !! p)) →
  let '(fact, h', db') := add_fact key atoms h db in
  ∃ r, get key (length atoms) h' db' = Ok (Some r, h', db')
       ∧ ((∀ exprs p e, m_expressions db !! key = Some exprs → p ∈ exprs →
                        h !! p = Some e → arity e ≠ length atoms) →
          r = fact).
Proof.
  intros Hlive. unfold add_fact.
  destruct (add_atoms atoms [] h (m_atoms db)) as [[so_far h1] pool] eqn:Hatoms.
  destruct (new (Fact so_far) h1) as [fact h2] eqn:Hnew.
  apply add_atoms_spec in Hatoms as (parts & -> & -> & Hlen & Hsub & _).
  by apply (get_after_register key (length atoms) fact (Fact ([] ++ parts))
              h h1 h2 db).
Qed.

(** X17: after [add_rule(key, a1, ..., an)], [get(key, n)] is not
    [nullptr]; it is the new rule when no earlier entry under [key] has
    arity [n], under the same assumption on the entries under [key]. *)
Theorem add_rule_then_get (key : name) (args : list (rule_arg ty val))
    (h : heap) (db : Database name) :
  (∀ exprs p, m_expressions db !! key = Some exprs → p ∈ exprs →
              is_Some (h !! p)) →
  let '(rule, h', db') := add_rule key args h db in
  ∃ r, get key (length args) h' db' = Ok (Some r, h', db')
       ∧ ((∀ exprs p e, m_expressions db !! key = Some exprs → p ∈ exprs →
                        h !! p = Some e → arity e ≠ length args) →
          r = rule).
Proof.
  intros Hlive. unfold add_rule.
  destruct (add_args args [] h (m_atoms db)) as [[so_far h1] pool] eqn:Hargs.
  destruct (new (Rule so_far []) h1) as [rule h2] eqn:Hnew.
  apply add_args_spec in Hargs as (news & -> & Hlen & Hsub & _).
  by apply (get_after_register key (length args) rule (Rule ([] ++ news) [])
              h h1 h2 db).
Qed.

(** X18: [add_fact] and [add_rule] under one name do not change what
    [get] returns under another name, for any arity. *)
Theorem get_other_name_unchanged (key key' : name) (n : nat)
    (atoms : list (fact_arg ty val)) (args : list (rule_arg ty val))
    (h : heap) (db : Database name) :
  key' ≠ key →
  (∀ exprs p, m_expressions db !! key' = Some exprs → p ∈ exprs →
              is_Some (h !! p)) →
  ∃ r, get key' n h db = Ok (r, h, db)
       ∧ (let '(_, h', db') := add_fact key atoms h db in
          get key' n h' db' = Ok (r, h', db'))
       ∧ (let '(_, h', db') := add_rule key args h db in
          get key' n h' db' = Ok (r, h', db')).
Proof.
  intros Hne Hlive.
  assert (Hget : ∀ h' (db' : Database name),
            h ⊆ h' →
            m_expressions db' !! key' = m_expressions db !! key' →
            ∃ r, get key' n h db = Ok (r, h, db)
                 ∧ get key' n h' db' = Ok (r, h', db')).
  { intros h' db' Hsub Hsame.
    destruct (m_expressions db !! key') as [exprs|] eqn:Hkey.
    - destruct (find_if_arity_spec n exprs h) as (r & Hr & _); [eauto|].
      exists r.
      rewrite (get_registered _ _ _ _ _ Hkey), (get_registered _ _ _ _ _ Hsame).
      rewrite (find_if_arity_weaken n exprs h h') by eauto.
      by rewrite Hr.
    - exists None. unfold get. by rewrite Hkey, Hsame. }
  pose proof (add_fact_state key atoms h db) as Hfact.
  pose proof (add_rule_state key args h db) as Hrule.
  destruct (add_fact key atoms h db) as [[fact hf] dbf].
  destruct (add_rule key args h db) as [[rule hr] dbr].
  destruct Hfact as [Hsubf Hmf]. destruct Hrule as [Hsubr Hmr].
  destruct (Hget hf dbf Hsubf (Hmf key' Hne)) as (r & Hr & Hrf).
  destruct (Hget hr dbr Hsubr (Hmr key' Hne)) as (r' & Hr' & Hrr).
  rewrite Hr in Hr'. injection Hr' as <-. eauto.
Qed.

(** ** The destructor *)

Lemma fresh_not_live h p : h !! p = None → is_Some (h !! p) → False.
Proof. intros Hfree [x Hx]. congruence. Qed.

Lemma allocation_inv_new_atom h0 h (m : gmap name (list loc)) pool e p h' :
  allocation_inv h0 h m pool → new e h = (p, h') →
  allocation_inv h0 h' m (pool ++ [p]).
Proof.
  intros (Hsub & Hnd & Hpool & Hm & Hdisj & Hall) [Hfree ->]%new_spec.
  assert (Hh0 : h0 !! p = None) by (by eapply lookup_weaken_None).
  assert (Hlive : ∀ q, is_Some (h !! q) → is_Some (<[p := e]> h !! q)).
  { intros q Hq. rewrite lookup_insert_ne; [assumption|].
    intros ->. eauto using fresh_not_live. }
  assert (Hnotpool : p ∉ pool).
  { intros Hin. destruct (Hpool p Hin) as [_ Hq].
    eauto using fresh_not_live. }
  split; [|split; [|split; [|split; [|split]]]].
  - etrans; [exact Hsub|]. by apply insert_subseteq.
  - apply NoDup_app. repeat split; [assumption| |apply NoDup_singleton].
    intros q Hq Hq'%list_elem_of_singleton. by subst.
  - intros q [Hq|Hq%list_elem_of_singleton]%elem_of_app.
    + destruct (Hpool q Hq). split; auto.
    + subst q. split; [assumption|]. rewrite lookup_insert_eq. eauto.
  - intros key exprs Hkey. destruct (Hm key exprs Hkey) as [Hnd' Hex].
    split; [assumption|]. intros q Hq.
    destruct (Hex q Hq) as (H1 & H2 & H3).
    repeat split; [assumption|by apply Hlive|].
    intros [?|Heq%list_elem_of_singleton]%elem_of_app; [contradiction|].
    subst q. eauto using fresh_not_live.
  - exact Hdisj.
  - intros q Hq. destruct (decide (q = p)) as [->|Hne].
    + right. left. apply elem_of_app. right. apply list_elem_of_here.
    + rewrite lookup_insert_ne in Hq by congruence.
      destruct (Hall q Hq) as [?|[?|?]]; [by left| |by right; right].
      right. left. apply elem_of_app. by left.
Qed.

Lemma default_entries (m : gmap name (list loc)) key p :
  p ∈ default [] (m !! key) → ∃ exprs, m !! key = Some exprs ∧ p ∈ exprs.
Proof.
  destruct (m !! key) as [exprs|]; simpl; [eauto|].
  intros Hp. by apply elem_of_nil in Hp.
Qed.

Lemma allocation_inv_register h0 h (m : gmap name (list loc)) pool key e q h' :
  allocation_inv h0 h m pool → new e h = (q, h') →
  allocation_inv h0 h' (push_back_at key q m) pool.
Proof.
  intros (Hsub & Hnd & Hpool & Hm & Hdisj & Hall) [Hfree ->]%new_spec.
  assert (Hh0 : h0 !! q = None) by (by eapply lookup_weaken_None).
  assert (Hlive : ∀ p, is_Some (h !! p) → is_Some (<[q := e]> h !! p)).
  { intros p Hp. rewrite lookup_insert_ne; [assumption|].
    intros ->. eauto using fresh_not_live. }
  assert (Hnotpool : q ∉ pool).
  { intros Hin. destruct (Hpool q Hin) as [_ Hq].
    eauto using fresh_not_live. }
  assert (Hnotreg : ∀ k exprs, m !! k = Some exprs → q ∉ exprs).
  { intros k exprs Hk Hin. destruct (Hm k exprs Hk) as [_ Hex].
    destruct (Hex q Hin) as (_ & Hq & _). eauto using fresh_not_live. }
  assert (Hnotold : q ∉ default [] (m !! key)).
  { intros (exprs & Hk & Hin)%default_entries. by eapply Hnotreg. }
  split; [|split; [|split; [|split; [|split]]]].
  - etrans; [exact Hsub|]. by apply insert_subseteq.
  - exact Hnd.
  - intros p Hp. destruct (Hpool p Hp). split; auto.
  - intros key' exprs Hkey. rewrite push_back_at_lookup in Hkey.
    case_decide as Hk.
    + injection Hkey as <-. split.
      * apply NoDup_app. repeat split; [| |apply NoDup_singleton].
        -- destruct (m !! key) as [old|] eqn:Hold; simpl; [|constructor].
           by apply (Hm key old).
        -- intros p Hp Hp'%list_elem_of_singleton. by subst.
      * intros p [Hp|Hp%list_elem_of_singleton]%elem_of_app.
        -- apply default_entries in Hp as (old & Hold & Hp).
           destruct (Hm key old Hold) as [_ Hex].
           destruct (Hex p Hp) as (H1 & H2 & H3). auto.
        -- subst p. repeat split; [assumption| |assumption].
           rewrite lookup_insert_eq. eauto.
    + destruct (Hm key' exprs Hkey) as [Hnd' Hex]. split; [assumption|].
      intros p Hp. destruct (Hex p Hp) as (H1 & H2 & H3). auto.
  - intros k1 k2 e1 e2 p Hk1 Hk2 Hp1 Hp2.
    rewrite push_back_at_lookup in Hk1, Hk2.
    destruct (decide (key = k1)) as [<-|Hne1], (decide (key = k2)) as [<-|Hne2];
      [reflexivity| | |by eapply Hdisj].
    + injection Hk1 as <-.
      apply elem_of_app in Hp1 as [Hp1|Hp1%list_elem_of_singleton].
      * apply default_entries in Hp1 as (old & Hold & Hp1). by eapply Hdisj.
      * subst p. exfalso. by eapply Hnotreg.
    + injection Hk2 as <-.
      apply elem_of_app in Hp2 as [Hp2|Hp2%list_elem_of_singleton].
      * apply default_entries in Hp2 as (old & Hold & Hp2). by eapply Hdisj.
      * subst p. exfalso. by eapply Hnotreg.
  - intros p Hp. destruct (decide (p = q)) as [->|Hne].
    + right. right. exists key, (default [] (m !! key) ++ [q]).
      rewrite push_back_at_lookup, decide_True by reflexivity.
      split; [reflexivity|]. apply elem_of_app. right. apply list_elem_of_here.
    + rewrite lookup_insert_ne in Hp by congruence.
      destruct (Hall p Hp) as [?|[?|(k & exprs & Hk & Hin)]];
        [by left|by right; left|].
      right. right. destruct (decide (key = k)) as [<-|Hnek].
      * exists key, (default [] (m !! key) ++ [q]).
        rewrite push_back_at_lookup, decide_True by reflexivity.
        split; [reflexivity|]. apply elem_of_app. left. by rewrite Hk.
      * exists k, exprs. rewrite push_back_at_lookup, decide_False by assumption.
        by split.
Qed.

Lemma add_atoms_allocation_inv h0 (m : gmap name (list loc)) atoms :
  ∀ so_far h pool so_far' h' pool',
    add_atoms atoms so_far h pool = (so_far', h', pool') →
    allocation_inv h0 h m pool → allocation_inv h0 h' m pool'.
Proof.
  induction atoms as [|atom rest IH];
    intros so_far h pool so_far' h' pool' Hrun Hinv; cbn [add_atoms] in Hrun.
  - by injection Hrun as _ <- <-.
  - unfold add_atom in Hrun. destruct (new _ h) as [p h1] eqn:Hnew.
    eapply IH; [exact Hrun|]. by eapply allocation_inv_new_atom.
Qed.

Lemma add_args_allocation_inv h0 (m : gmap name (list loc)) args :
  ∀ so_far h pool so_far' h' pool',
    add_args args so_far h pool = (so_far', h', pool') →
    allocation_inv h0 h m pool → allocation_inv h0 h' m pool'.
Proof.
  induction args as [|arg rest IH];
    intros so_far h pool so_far' h' pool' Hrun Hinv; cbn [add_args] in Hrun.
  - by injection Hrun as _ <- <-.
  - destruct arg as [expr|T init]; cbn [add_arg] in Hrun.
    + by eapply IH.
    + destruct (new _ h) as [p h1] eqn:Hnew.
      eapply IH; [exact Hrun|]. by eapply allocation_inv_new_atom.
Qed.

Lemma built_allocation_inv allowed h0 h db :
  built allowed h0 h db →
  allocation_inv h0 h (m_expressions db) (m_atoms db).
Proof.
  induction 1 as [|h db key atoms _ IH|h db key args _ IH Hptr].
  - split; [reflexivity|]. split; [constructor|]. split.
    { intros p Hp. by apply elem_of_nil in Hp. }
    cbn [empty_db m_expressions]. split.
    { intros key exprs Hkey. by rewrite lookup_empty in Hkey. }
    split.
    { intros k1 k2 e1 e2 p Hk1. by rewrite lookup_empty in Hk1. }
    intros p Hp. by left.
  - unfold add_fact.
    destruct (add_atoms atoms [] h (m_atoms db)) as [[so_far h1] pool] eqn:Hatoms.
    destruct (new (Fact so_far) h1) as [fact h2] eqn:Hnew. cbn [fst snd].
    cbn [m_expressions m_atoms].
    eapply allocation_inv_register; [|exact Hnew].
    by eapply add_atoms_allocation_inv.
  - unfold add_rule.
    destruct (add_args args [] h (m_atoms db)) as [[so_far h1] pool] eqn:Hargs.
    destruct (new (Rule so_far []) h1) as [rule h2] eqn:Hnew. cbn [fst snd].
    cbn [m_expressions m_atoms].
    eapply allocation_inv_register; [|exact Hnew].
    by eapply add_args_allocation_inv.
Qed.

Lemma delete_each_app ps1 ps2 : ∀ h,
  delete_each (ps1 ++ ps2) h = (delete_each ps1 h ≫= delete_each ps2).
Proof.
  induction ps1 as [|p rest IH]; intros h; [reflexivity|].
  simpl. destruct (delete_expr p h) as [h1| |]; simpl; [apply IH|done..].
Qed.

Lemma delete_lists_concat (entries : list (name * list loc)) : ∀ h,
  delete_lists entries h = delete_each (mjoin entries.*2) h.
Proof.
  induction entries as [|[key exprs] rest IH]; intros h; [reflexivity|].
  simpl. rewrite delete_each_app.
  destruct (delete_each exprs h) as [h1| |]; simpl; [apply IH|done..].
Qed.

Lemma delete_each_spec ps : ∀ h,
  NoDup ps → (∀ p, p ∈ ps → is_Some (h !! p)) →
  ∃ h', delete_each ps h = Ok h'
        ∧ ∀ q, h' !! q = if decide (q ∈ ps) then None else h !! q.
Proof.
  induction ps as [|p rest IH]; intros h Hnd Hlive.
  - exists h. split; [reflexivity|]. intros q.
    destruct (decide _) as [Hin|]; [|reflexivity]. by apply elem_of_nil in Hin.
  - apply NoDup_cons in Hnd as [Hnotin Hnd].
    destruct (Hlive p) as [e He]; [apply list_elem_of_here|].
    simpl. unfold delete_expr. rewrite He, bind_Ok_l.
    destruct (IH (delete p h) Hnd) as (h' & -> & Hlook).
    { intros q Hq. rewrite lookup_delete_ne by (intros ->; contradiction).
      apply Hlive. by apply list_elem_of_further. }
    exists h'. split; [reflexivity|]. intros q. rewrite (Hlook q).
    destruct (decide (q = p)) as [->|Hne].
    + rewrite decide_False by assumption. rewrite lookup_delete_eq.
      rewrite decide_True; [reflexivity|apply list_elem_of_here].
    + rewrite lookup_delete_ne by congruence.
      destruct (decide (q ∈ rest)) as [Hin|Hout].
      * rewrite decide_True; [reflexivity|by apply list_elem_of_further].
      * rewrite decide_False; [reflexivity|].
        intros [?|?]%elem_of_cons; contradiction.
Qed.

Lemma NoDup_concat_entries (entries : list (name * list loc)) :
  NoDup entries.*1 →
  (∀ k l, (k, l) ∈ entries → NoDup l) →
  (∀ k1 l1 k2 l2 p, (k1, l1) ∈ entries → (k2, l2) ∈ entries →
                    p ∈ l1 → p ∈ l2 → k1 = k2) →
  NoDup (mjoin entries.*2).
Proof.
  induction entries as [|[k l] rest IH]; intros Hkeys Hnd Hdisj; simpl.
  - constructor.
  - simpl in Hkeys. apply NoDup_cons in Hkeys as [Hk Hkeys].
    apply NoDup_app. repeat split.
    + apply (Hnd k). apply list_elem_of_here.
    + intros p Hp (l2 & Hp2 & Hl2)%list_elem_of_join.
      apply list_elem_of_fmap in Hl2 as ([k2 l2'] & -> & Hin). simpl in Hp2.
      assert (k = k2) as <-.
      { apply (Hdisj k l k2 l2' p); [apply list_elem_of_here| |assumption..].
        by apply list_elem_of_further. }
      apply Hk. apply list_elem_of_fmap. by exists (k, l2').
    + apply IH; [assumption| |].
      * intros k' l' Hin. apply (Hnd k'). by apply list_elem_of_further.
      * intros k1 l1 k2 l2 p H1 H2. apply Hdisj; by apply list_elem_of_further.
Qed.

(** X19: for a database built by [add_fact] and [add_rule] on top of the
    caller's store, the destructor runs without freeing anything twice or
    freeing a dead pointer, in whatever order the map is traversed, and it
    leaves exactly the caller's store: every object the database made is
    freed once, and no object of the caller is freed, pointers handed to
    [add_rule] included. *)
Theorem Database_destroy_frees_own (allowed : heap → Database name → loc → Prop)
    (h0 h : heap) (db : Database name) (entries : list (name * list loc)) :
  built allowed h0 h db →
  entries ≡ₚ map_to_list (m_expressions db) →
  Database_destroy entries db h = Ok h0.
Proof.
  intros (Hsub & Hnd & Hpool & Hm & Hdisj & Hall)%built_allocation_inv Hperm.
  assert (Hentry : ∀ k l, (k, l) ∈ entries ↔ m_expressions db !! k = Some l).
  { intros k l. rewrite Hperm. apply elem_of_map_to_list. }
  unfold Database_destroy. rewrite delete_lists_concat, <- delete_each_app.
  set (all := mjoin entries.*2 ++ m_atoms db).
  assert (Hreg : ∀ p, p ∈ mjoin entries.*2 ↔
            ∃ k l, m_expressions db !! k = Some l ∧ p ∈ l).
  { intros p. rewrite list_elem_of_join. split.
    - intros (l & Hp & Hl). apply list_elem_of_fmap in Hl as ([k l'] & -> & Hin).
      exists k, l'. split; [by apply Hentry|assumption].
    - intros (k & l & Hk & Hp). exists l. split; [assumption|].
      apply list_elem_of_fmap. exists (k, l). split; [reflexivity|].
      by apply Hentry. }
  destruct (delete_each_spec all h) as (h' & -> & Hlook).
  - apply NoDup_app. repeat split; [| |assumption].
    + apply NoDup_concat_entries.
      * rewrite Hperm. apply NoDup_fst_map_to_list.
      * intros k l Hin%Hentry. by apply (Hm k l).
      * intros k1 l1 k2 l2 p H1%Hentry H2%Hentry. by apply Hdisj.
    + intros p (k & l & Hk & Hp)%Hreg Hin.
      destruct (Hm k l Hk) as [_ Hex]. destruct (Hex p Hp) as (_ & _ & Hout).
      contradiction.
  - intros p [(k & l & Hk & Hp)%Hreg|Hp]%elem_of_app.
    + destruct (Hm k l Hk) as [_ Hex]. by destruct (Hex p Hp) as (_ & ? & _).
    + by destruct (Hpool p Hp).
  - f_equal. apply map_eq. intros q. rewrite (Hlook q).
    destruct (decide (q ∈ all)) as [Hin|Hout].
    + symmetry. apply elem_of_app in Hin as [(k & l & Hk & Hp)%Hreg|Hp].
      * destruct (Hm k l Hk) as [_ Hex]. by destruct (Hex q Hp) as (? & _).
      * by destruct (Hpool q Hp).
    + destruct (h !! q) as [e|] eqn:Hq.
      * destruct (Hall q) as [[e0 He0]|[Hp|(k & l & Hk & Hp)]]; [eauto| | |].
        -- rewrite He0. by rewrite (lookup_weaken _ _ _ _ He0 Hsub) in Hq.
        -- exfalso. apply Hout, elem_of_app. by right.
        -- exfalso. apply Hout, elem_of_app. left. apply Hreg. eauto.
      * symmetry. by eapply lookup_weaken_None.
Qed.

End Properties.

(** ** The properties on the concrete database *)
Module ScenarioFacts.
Import Scenario.

Example parent_state_eval :
  parent_fact = 2
  ∧ parent_heap !! 0 = Some (Atom "string" "alice" true)
  ∧ parent_heap !! 1 = Some (Atom "string" "bob" true)
  ∧ parent_heap !! 2 = Some (Fact [0; 1])
  ∧ m_atoms parent_db = [0; 1]
  ∧ m_expressions parent_db !! "parent" = Some [2].
Proof. vm_compute. repeat split. Qed.

(** C1, as stated, fails: the query [parent(X, "zoe")] answers false, and
    the variable [X], which held the empty string, holds ["alice"]
    afterwards (its status is restored, its stored value is not). *)
Lemma Fact_call_failure_keeps_new_value :
  query_heap !! 2 = Some (Fact [0; 1])
  ∧ Fact_call (call 1) [0; 1] [3; 5] query_heap = Ok (false, failed_heap)
  ∧ 3 ∈ [3; 5]
  ∧ query_heap !! 3 = Some (Atom "string" "" false)
  ∧ failed_heap !! 3 = Some (Atom "string" "alice" false)
  ∧ failed_heap !! 3 ≠ query_heap !! 3.
Proof.
  split; [reflexivity|]. split; [vm_compute; reflexivity|].
  split; [apply list_elem_of_here|]. split; [reflexivity|].
  split; [reflexivity|]. vm_compute. discriminate.
Qed.

Lemma Fact_call_failure_atomic_witness :
  Fact_call (call 1) [0; 1] [3; 5] query_heap = Ok (false, failed_heap)
  ∧ (∀ p, status failed_heap p = status query_heap p)
  ∧ (∀ p T v, query_heap !! p = Some (Atom T v true) →
              failed_heap !! p = Some (Atom T v true))
  ∧ (∀ p, p ∉ [3; 5] → failed_heap !! p = query_heap !! p)
  ∧ (∀ p T v, query_heap !! p = Some (Atom T v false) →
              ∃ v', failed_heap !! p = Some (Atom T v' false)).
Proof.
  assert (Hrun : Fact_call (call 1) [0; 1] [3; 5] query_heap
                 = Ok (false, failed_heap)) by (vm_compute; reflexivity).
  split; [exact Hrun|].
  exact (Fact_call_failure_atomic 1 [0; 1] [3; 5] query_heap failed_heap Hrun).
Defined.

Lemma arity_mismatch_fails_witness :
  query_heap !! 2 = Some (Fact [0; 1])
  ∧ length [3] ≠ arity (Fact (ty := string) (val := string) [0; 1])
  ∧ call 1 2 [3] query_heap = Ok (false, query_heap).
Proof.
  assert (Hlen : length [3] ≠ arity (Fact (ty := string) (val := string) [0; 1]))
    by (simpl; lia).
  split; [reflexivity|]. split; [exact Hlen|].
  exact (proj1 (arity_mismatch_fails 0 2 (Fact [0; 1]) [3] query_heap
                  eq_refl eq_refl Hlen)).
Defined.

Lemma Atom_call_bound_arg_witness :
  (call 1 0 [4] query_heap = Ok (true, query_heap))
  ∧ (call 1 1 [4] query_heap = Ok (false, query_heap))
  ∧ (call 1 1 [2] number_heap = Ok (true, number_heap))
  ∧ (call 1 0 [0] number_heap = Ok (false, number_heap)).
Proof.
  split; [|split; [|split]].
  - exact (proj1 (Atom_call_bound_arg 0 "string" "alice" "alice" true 0 4
                    query_heap eq_refl eq_refl) eq_refl).
  - exact (proj1 (proj2 (Atom_call_bound_arg 0 "string" "bob" "alice" true 1 4
                           query_heap eq_refl eq_refl)) eq_refl).
  - exact (proj1 (Atom_call_bound_arg 0 "double" pos_zero neg_zero true 1 2
                    number_heap eq_refl eq_refl) eq_refl).
  - exact (proj1 (proj2 (Atom_call_bound_arg 0 "double" nan nan true 0 0
                           number_heap eq_refl eq_refl)) eq_refl).
Defined.

Lemma Atom_call_type_mismatch_witness :
  (call 1 1 [5] number_heap = Ok (false, number_heap)
   ∧ number_heap !! 5 = Some (Atom "long" one false))
  ∧ call 1 6 [3] number_heap = Ok (false, number_heap)
  ∧ call 1 1 [4] number_heap = Ok (false, number_heap)
  ∧ call 1 0 [2] query_heap = Ok (false, query_heap).
Proof.
  assert (Hlong : "long" ≠ "double") by discriminate.
  assert (Hdouble : "double" ≠ "long") by discriminate.
  split; [split; [|reflexivity]|split; [|split]].
  - exact (proj2 (Atom_call_type_mismatch 0 "double" pos_zero true 1 5
                    (Atom "long" one false) number_heap eq_refl eq_refl Hlong)).
  - exact (proj2 (Atom_call_type_mismatch 0 "long" one true 6 3
                    (Atom "double" one false) number_heap eq_refl eq_refl
                    Hdouble)).
  - exact (proj2 (Atom_call_type_mismatch 0 "double" pos_zero true 1 4
                    (Fact [0]) number_heap eq_refl eq_refl I)).
  - exact (proj2 (Atom_call_type_mismatch 0 "string" "alice" true 0 2
                    (Fact [0; 1]) query_heap eq_refl eq_refl I)).
Defined.

Lemma Fact_Rule_status_fixed_witness :
  is_unified (Fact (ty := string) (val := string) [0; 1]) = true
  ∧ (∀ v : bool, set_unified v (Fact (ty := string) (val := string) [0; 1])
                 = Fact [0; 1])
  ∧ restore_ununified [0; 1] [2; 3] failed_heap = Ok failed_heap
  ∧ failed_heap !! 2 = Some (Fact [0; 1]).
Proof.
  assert (Hrun : restore_ununified [0; 1] [2; 3] failed_heap = Ok failed_heap)
    by (vm_compute; reflexivity).
  pose proof (Fact_Rule_status_fixed (Fact (ty := string) (val := string) [0; 1])
                eq_refl) as (Hu & Hset & Hkeep & _).
  split; [exact Hu|]. split; [exact Hset|]. split; [exact Hrun|].
  exact (Hkeep [0; 1] [2; 3] failed_heap failed_heap 2 Hrun eq_refl).
Defined.

Lemma get_first_match_witness :
  get "parent" 2 parent_heap parent_db = Ok (Some 2, parent_heap, parent_db)
  ∧ get "parent" 3 parent_heap parent_db = Ok (None, parent_heap, parent_db)
  ∧ get "child" 2 parent_heap parent_db = Ok (None, parent_heap, parent_db)
  ∧ ∃ r, get "parent" 2 parent_heap parent_db = Ok (r, parent_heap, parent_db)
         ∧ first_with_arity parent_heap 2 [2] r.
Proof.
  split; [vm_compute; reflexivity|]. split; [vm_compute; reflexivity|].
  split; [vm_compute; reflexivity|].
  destruct (get_first_match "parent" 2 parent_heap parent_db) as [(r & Hr & Hfirst & _) _].
  - exact (built_registered_allocated any_pointer ∅ parent_heap parent_db
             (built_add_fact any_pointer ∅ ∅ empty_db "parent"
                [Value "string" "alice"; Value "string" "bob"]
                (built_new any_pointer ∅)) "parent").
  - exists r. split; [exact Hr|exact Hfirst].
Defined.

Lemma add_fact_then_unify_witness :
  asked_fact_heap !! 4 = Some (Atom "string" "alice" true)
  ∧ asked_fact_heap !! 3 = Some (Atom "string" "" false)
  ∧ m_expressions asked_db !! "parent" = Some [asked_fact]
  ∧ ∃ h2, call 2 asked_fact [4; 3] asked_fact_heap = Ok (true, h2)
          ∧ h2 !! 3 = Some (Atom "string" "bob" true)
          ∧ h2 !! 4 = Some (Atom "string" "alice" true).
Proof.
  split; [reflexivity|]. split; [reflexivity|].
  exact (add_fact_then_unify "parent" "string" "alice" "bob" "alice" ""
           asked_heap empty_db 4 3 0 eq_refl eq_refl eq_refl).
Defined.

(** C8, as stated, fails: [add_rule("r", p)] with [p] the caller's own atom
    registers a rule from which that atom is reachable, and the atom is not
    in [m_atoms]. *)
Lemma add_rule_pointer_not_in_pool :
  built any_pointer caller_heap caller_rule_heap caller_rule_db
  ∧ m_expressions caller_rule_db !! "r" = Some [1]
  ∧ caller_rule_heap !! 1 = Some (Rule [0] [])
  ∧ reach caller_rule_heap 1 0
  ∧ caller_rule_heap !! 0 = Some (Atom "string" "x" false)
  ∧ (0 ∉ m_atoms caller_rule_db)
  ∧ ¬ pool_invariant caller_rule_heap caller_rule_db.
Proof.
  assert (Hkey : m_expressions caller_rule_db !! "r" = Some [1]) by reflexivity.
  assert (Hrule : caller_rule_heap !! 1 = Some (Rule [0] [])) by reflexivity.
  assert (Hreach : reach caller_rule_heap 1 0).
  { apply (reach_child _ 1 (Rule [0] []) 0 0 Hrule); [|apply reach_here].
    apply list_elem_of_here. }
  assert (Hout : 0 ∉ m_atoms caller_rule_db).
  { change (m_atoms caller_rule_db) with (@nil loc). apply not_elem_of_nil. }
  split.
  { apply (built_add_rule any_pointer caller_heap caller_heap empty_db "r"
             [Pointer 0]); [apply built_new|]. intros p _. exact I. }
  repeat (split; [first [assumption|reflexivity]|]).
  intros Hinv. apply Hout.
  apply (Hinv "r" [1] 1 Hkey); [apply list_elem_of_here|exact Hreach|].
  reflexivity.
Qed.

Lemma pool_invariant_built_witness :
  built owned_pointer ∅ ancestor_heap ancestor_db
  ∧ ancestor_heap !! ancestor_rule = Some (Rule [3; 4; 0] [])
  ∧ pool_invariant ancestor_heap ancestor_db.
Proof.
  assert (Hbuilt : built owned_pointer ∅ ancestor_heap ancestor_db).
  { apply (built_add_rule owned_pointer ∅ parent_heap parent_db "ancestor"
             ancestor_args).
    - apply (built_add_fact owned_pointer ∅ ∅ empty_db "parent"
               [Value "string" "alice"; Value "string" "bob"]).
      apply built_new.
    - intros p Hp.
      assert (p = 0) as ->.
      { unfold ancestor_args in Hp.
        repeat (apply elem_of_cons in Hp as [Hp|Hp]; [congruence|]).
        by apply elem_of_nil in Hp. }
      intros q Hreach _. change (m_atoms parent_db) with [0; 1].
      inversion Hreach as [|root e c q' Hlook Hc _]; subst.
      + apply list_elem_of_here.
      + change (parent_heap !! 0) with (Some (Atom "string" "alice" true)) in Hlook.
        injection Hlook as <-. by apply elem_of_nil in Hc. }
  split; [exact Hbuilt|]. split; [reflexivity|].
  exact (pool_invariant_built ∅ ancestor_heap ancestor_db Hbuilt).
Defined.

End ScenarioFacts.

(** ** The further properties on the concrete database *)
Module CoverageFacts.
Import Scenario.

Ltac live_in_list :=
  let a := fresh "a" in
  let Ha := fresh "Ha" in
  intros a Ha;
  repeat (apply elem_of_cons in Ha as [->|Ha]; [vm_compute; eauto|]);
  by apply elem_of_nil in Ha.

Ltac ground_in_list :=
  let a := fresh "a" in
  let Ha := fresh "Ha" in
  intros a Ha;
  repeat (apply elem_of_cons in Ha as [->|Ha];
          [vm_compute; do 2 eexists; reflexivity|]);
  by apply elem_of_nil in Ha.

Lemma ununified_positions_exact_witness :
  ununified_positions [3; 5] query_heap = Ok [0]
  ∧ StronglySorted lt [0]
  ∧ (∀ pos, pos ∈ [0] ↔
       ∃ a, [3; 5] !! pos = Some a ∧ status query_heap a = Some false).
Proof.
  assert (Hrun : ununified_positions [3; 5] query_heap = Ok [0])
    by (vm_compute; reflexivity).
  pose proof (ununified_positions_exact [3; 5] query_heap [0] Hrun)
    as (Hsorted & Hiff & _).
  split; [exact Hrun|]. split; [exact Hsorted|exact Hiff].
Defined.

Lemma record_restore_roundtrip_witness :
  ∃ positions, ununified_positions [3; 5] query_heap = Ok positions
               ∧ restore_ununified positions [3; 5] query_heap = Ok query_heap.
Proof. apply (record_restore_roundtrip [3; 5] query_heap). live_in_list. Defined.

Lemma call_preserves_witness :
  call 2 2 [4; 3] query_heap = Ok (true, answered_heap)
  ∧ (∀ p, p ∉ [4; 3] → answered_heap !! p = query_heap !! p)
  ∧ dom answered_heap = dom query_heap.
Proof.
  assert (Hrun : call 2 2 [4; 3] query_heap = Ok (true, answered_heap))
    by (vm_compute; reflexivity).
  pose proof (call_preserves 2 2 [4; 3] query_heap answered_heap true Hrun)
    as (Hframe & _ & Hdom).
  split; [exact Hrun|]. split; [exact Hframe|exact Hdom].
Defined.

Lemma Atom_call_binds_then_repeats_witness :
  (call 1 1 [3] query_heap = Ok (true, answered_heap)
   ∧ call 1 1 [3] answered_heap = Ok (true, answered_heap))
  ∧ (call 1 0 [3] number_heap = Ok (true, number_bound_heap)
     ∧ call 1 0 [3] number_bound_heap = Ok (false, number_bound_heap)).
Proof.
  split.
  - exact (Atom_call_binds_then_repeats 0 "string" "bob" "" true 1 3 query_heap
             eq_refl eq_refl).
  - exact (Atom_call_binds_then_repeats 0 "double" nan one true 0 3 number_heap
             eq_refl eq_refl).
Defined.

Lemma Fact_call_success_answers_witness :
  Fact_call (call 1) [0; 1] [4; 3] query_heap = Ok (true, answered_heap)
  ∧ carries answered_heap 3 "string" "bob"
  ∧ answered_heap !! 1 = Some (Atom "string" "bob" true).
Proof.
  assert (Hrun : Fact_call (call 1) [0; 1] [4; 3] query_heap
                 = Ok (true, answered_heap)) by (vm_compute; reflexivity).
  split; [exact Hrun|].
  exact (proj2 (Fact_call_success_answers 1 [0; 1] [4; 3] query_heap
                  answered_heap Hrun) 1 1 3 "string" "bob"
           eq_refl eq_refl eq_refl).
Defined.

Lemma Fact_call_success_repeats_witness :
  Fact_call (call 1) [0; 1] [4; 3] query_heap = Ok (true, answered_heap)
  ∧ Fact_call (call 1) [0; 1] [4; 3] answered_heap = Ok (true, answered_heap).
Proof.
  assert (Hrun : Fact_call (call 1) [0; 1] [4; 3] query_heap
                 = Ok (true, answered_heap)) by (vm_compute; reflexivity).
  split; [exact Hrun|].
  apply (Fact_call_success_repeats 0 [0; 1] [4; 3] query_heap answered_heap);
    [|exact Hrun].
  intros a Ha.
  repeat (apply elem_of_cons in Ha as [->|Ha];
          [vm_compute; do 2 eexists; split; reflexivity|]).
  by apply elem_of_nil in Ha.
Defined.

(** The same on a fact holding NaN: the first call binds the variable, the
    repeated call answers false. *)
Example Fact_call_repeat_on_nan :
  Fact_call (call 1) [0] [3] number_heap = Ok (true, number_bound_heap)
  ∧ ∃ h', Fact_call (call 1) [0] [3] number_bound_heap = Ok (false, h').
Proof.
  split; [vm_compute; reflexivity|]. eexists. vm_compute. reflexivity.
Qed.

Lemma ground_fact_decides_witness :
  (∃ h', call 2 2 [5; 3] query_heap = Ok (false, h'))
  ∧ (∃ h', call 2 2 [4; 3] query_heap = Ok (true, h'))
  ∧ (∃ h', call 2 4 [0] number_heap = Ok (false, h')).
Proof.
  assert (Hdistinct : ∀ a b : loc, a ≠ b → NoDup [a; b]).
  { intros a b Hne. apply NoDup_cons. split; [|apply NoDup_singleton].
    by intros Hin%list_elem_of_singleton. }
  split; [|split].
  - destruct (ground_fact_decides 0 2 [0; 1] [5; 3] query_heap)
      as (h' & Hrun & _);
      [reflexivity|ground_in_list|live_in_list|by apply Hdistinct|reflexivity|].
    exists h'. exact Hrun.
  - destruct (ground_fact_decides 0 2 [0; 1] [4; 3] query_heap)
      as (h' & Hrun & _);
      [reflexivity|ground_in_list|live_in_list|by apply Hdistinct|reflexivity|].
    exists h'. exact Hrun.
  - destruct (ground_fact_decides 0 4 [0] [0] number_heap)
      as (h' & Hrun & _);
      [reflexivity|ground_in_list|live_in_list|apply NoDup_singleton
      |reflexivity|].
    exists h'. exact Hrun.
Defined.

Lemma Fact_call_returns_witness :
  ∃ b h', call 2 2 [3; 3; 2] query_heap = Ok (b, h').
Proof.
  apply (Fact_call_returns 0 2 [0; 1] [3; 3; 2] query_heap);
    [reflexivity| |live_in_list].
  intros a Ha.
  repeat (apply elem_of_cons in Ha as [->|Ha]; [reflexivity|]).
  by apply elem_of_nil in Ha.
Defined.

Lemma string_operator_eq_symmetric (x y : string) :
  value_eq x y = value_eq y x.
Proof. apply bool_decide_ext. split; congruence. Defined.

Lemma number_operator_eq_symmetric (x y : number) :
  value_eq x y = value_eq y x.
Proof. destruct x, y; reflexivity. Defined.

Lemma equals_symmetric_witness :
  equals 2 2 6 asking_heap = equals 2 6 2 asking_heap
  ∧ equals 1 1 2 number_heap = equals 1 2 1 number_heap.
Proof.
  split.
  - exact (equals_symmetric 2 2 6 asking_heap string_operator_eq_symmetric).
  - exact (equals_symmetric 1 1 2 number_heap number_operator_eq_symmetric).
Defined.

Lemma equals_reflexive_witness :
  equals 2 2 2 query_heap = Ok true ∧ true = true.
Proof.
  assert (Hrun : equals 2 2 2 query_heap = Ok true) by (vm_compute; reflexivity).
  split; [exact Hrun|].
  apply (equals_reflexive 2 2 query_heap true); [|exact Hrun].
  intros p T v u _. by apply bool_decide_eq_true_2.
Defined.

(** An atom holding NaN, and the fact made of it, are not [==] to
    themselves. *)
Example equals_not_reflexive_on_nan :
  equals 1 0 0 number_heap = Ok false ∧ equals 2 4 4 number_heap = Ok false.
Proof. split; vm_compute; reflexivity. Qed.

Lemma Atom_eq_predicts_call_witness :
  (equals 1 1 5 query_heap = Ok false
   ∧ ∃ h', call 1 1 [5] query_heap = Ok (false, h'))
  ∧ (equals 1 0 0 number_heap = Ok false
     ∧ ∃ h', call 1 0 [0] number_heap = Ok (false, h'))
  ∧ (equals 1 1 2 number_heap = Ok true
     ∧ ∃ h', call 1 1 [2] number_heap = Ok (true, h')).
Proof.
  split; [|split].
  - exact (Atom_eq_predicts_call 0 0 "string" "bob" 1 5 query_heap eq_refl
             (ex_intro _ _ eq_refl)).
  - exact (Atom_eq_predicts_call 0 0 "double" nan 0 0 number_heap eq_refl
             (ex_intro _ _ eq_refl)).
  - exact (Atom_eq_predicts_call 0 0 "double" pos_zero 1 2 number_heap eq_refl
             (ex_intro _ _ eq_refl)).
Defined.

Lemma Fact_eq_predicts_call_witness :
  ∃ b h', equals 2 2 6 asking_heap = Ok b
          ∧ call 2 2 [4; 3] asking_heap = Ok (b, h').
Proof.
  apply (Fact_eq_predicts_call 0 0 2 6 [0; 1] [4; 3] asking_heap);
    [reflexivity|reflexivity|ground_in_list|live_in_list|].
  apply NoDup_cons. split; [|apply NoDup_singleton].
  intros Hin%list_elem_of_singleton. discriminate Hin.
Defined.

Lemma Rule_append_twice_witness :
  ancestor_heap !! ancestor_rule = Some (Rule [3; 4; 0] [])
  ∧ ∃ h2, (Rule_append ancestor_rule 2 ancestor_heap
           ≫= Rule_append ancestor_rule 2) = Ok h2
          ∧ h2 !! ancestor_rule = Some (Rule [3; 4; 0] [2; 2]).
Proof.
  split; [reflexivity|].
  destruct (Rule_append_twice ancestor_rule 2 2 [3; 4; 0] [] ancestor_heap
              eq_refl) as (h2 & Hrun & Hrule & _).
  exists h2. split; [exact Hrun|exact Hrule].
Defined.

Lemma parent_entries_live :
  ∀ key exprs p, m_expressions parent_db !! key = Some exprs → p ∈ exprs →
                 is_Some (parent_heap !! p).
Proof.
  exact (built_registered_allocated any_pointer ∅ parent_heap parent_db
           (built_add_fact any_pointer ∅ ∅ empty_db "parent"
              [Value "string" "alice"; Value "string" "bob"]
              (built_new any_pointer ∅))).
Defined.

Lemma add_fact_then_get_witness :
  let '(fact, h', db') :=
    add_fact "parent" [Value "string" "bob"; Var "string" ""; Var "string" ""]
      parent_heap parent_db in
  ∃ r, get "parent" 3 h' db' = Ok (Some r, h', db').
Proof.
  destruct (add_fact_then_get "parent"
              [Value "string" "bob"; Var "string" ""; Var "string" ""]
              parent_heap parent_db (parent_entries_live "parent"))
    as (r & Hr & _).
  exists r. exact Hr.
Defined.

Lemma add_rule_then_get_witness :
  ∃ r, get "ancestor" 3 ancestor_heap ancestor_db
       = Ok (Some r, ancestor_heap, ancestor_db).
Proof.
  destruct (add_rule_then_get "ancestor" ancestor_args parent_heap parent_db
              (parent_entries_live "ancestor")) as (r & Hr & _).
  exists r. exact Hr.
Defined.

Lemma get_other_name_unchanged_witness :
  get "parent" 2 parent_heap parent_db = Ok (Some 2, parent_heap, parent_db)
  ∧ get "parent" 2 ancestor_heap ancestor_db
    = Ok (Some 2, ancestor_heap, ancestor_db).
Proof.
  assert (Hne : "parent" ≠ "ancestor") by discriminate.
  destruct (get_other_name_unchanged "ancestor" "parent" 2 [] ancestor_args
              parent_heap parent_db Hne (parent_entries_live "parent"))
    as (r & Hr & _ & Hrule).
  assert (r = Some 2) as ->.
  { assert (Hget : get "parent" 2 parent_heap parent_db
                   = Ok (Some 2, parent_heap, parent_db))
      by (vm_compute; reflexivity).
    rewrite Hget in Hr. by injection Hr as <-. }
  split; [exact Hr|exact Hrule].
Defined.

Lemma Database_destroy_frees_own_witness :
  caller_rule_heap !! 1 = Some (Rule [0] [])
  ∧ Database_destroy (map_to_list (m_expressions caller_rule_db))
      caller_rule_db caller_rule_heap = Ok caller_heap.
Proof.
  split; [reflexivity|].
  apply (Database_destroy_frees_own any_pointer caller_heap caller_rule_heap
           caller_rule_db); [|reflexivity].
  apply (built_add_rule any_pointer caller_heap caller_heap empty_db "r"
           [Pointer 0]); [apply built_new|]. intros p _. exact I.
Defined.

End CoverageFacts.
